(** * rardecode/reader.go: the per-file reader pipeline

    A shallow embedding of [reader.go] of the vendored [rardecode] package:
    the bounded reader ([limitedReader]), the block-chain walker
    ([packedFileReader]) and the top-level [Reader] that assembles, for
    every file of an archive, the chain
    packed data -> decrypt -> decode -> size bound -> checksum tee.

    Conventions.  A Go call [Read(p)] is modelled by the length of [p] and
    returns the bytes it stored in [p[0:n]] (so [n] is their [length])
    together with the [error] value, [None] standing for [nil].  Loops
    whose termination depends on a collaborator take a [fuel] argument and
    answer [None] when it runs out. *)

From Stdlib Require Import String.
From Stdlib Require Import List ZArith Lia Bool PeanoNat.
From Stdlib Require Import Init.Byte.
Import ListNotations.

Set Implicit Arguments.

(** ** Errors *)

(** The package's sentinel errors, [io.EOF], the errors of collaborators
    (numbered, they are opaque to this file) and the run-time panic of a
    nil dereference. *)
Inductive error : Type :=
| EOF
| errShortFile
| errInvalidFileBlock
| errUnexpectedArcEnd
| errBadFileChecksum
| errCollab (code : nat)
| panicNilDeref.

Definition error_eqb (a b : error) : bool :=
  match a, b with
  | EOF, EOF => true
  | errShortFile, errShortFile => true
  | errInvalidFileBlock, errInvalidFileBlock => true
  | errUnexpectedArcEnd, errUnexpectedArcEnd => true
  | errBadFileChecksum, errBadFileChecksum => true
  | errCollab m, errCollab n => Nat.eqb m n
  | panicNilDeref, panicNilDeref => true
  | _, _ => false
  end.

(** [err == io.EOF] on an [error] interface value. *)
Definition isEOF (err : option error) : bool :=
  match err with
  | Some e => error_eqb e EOF
  | None => false
  end.

(** What one [Read] call returns: the bytes stored and the error. *)
Definition result : Type := list byte * option error.

(** ** Execution monad: state passing, [None] when fuel runs out *)

Definition exec (St A : Type) : Type := St -> option (A * St).

Definition ret {St A : Type} (a : A) : exec St A := fun s => Some (a, s).

Definition bind {St A B : Type} (m : exec St A) (k : A -> exec St B)
  : exec St B :=
  fun s => match m s with
           | None => None
           | Some (a, s') => k a s'
           end.

Declare Scope exec_scope.
Delimit Scope exec_scope with exec.
Notation "x <- m ;; k" := (bind m (fun x => k))
  (at level 61, m at next level, right associativity) : exec_scope.
Notation "' pat <- m ;; k" := (bind m (fun x => match x with pat => k end))
  (at level 61, pat pattern, m at next level, right associativity) : exec_scope.
Open Scope exec_scope.

(** An [io.Reader]: a handle of type [R] (the object's own fields) read
    against the state [St] it shares with other objects. *)
Definition readFn (St R : Type) : Type := R -> nat -> exec St (result * R).

(** [int64] arithmetic wraps around. *)
Definition int64 (z : Z) : Z := ((z + 2 ^ 63) mod 2 ^ 64 - 2 ^ 63)%Z.

(** ** Standard-library readers used by the file *)

(** [bytes.Reader]: the handle is the unread suffix of the slice.  At the
    end it answers [(0, io.EOF)] whatever the buffer; otherwise it copies
    what fits. *)
Definition bytesReader_Read {St : Type} : readFn St (list byte) :=
  fun s p =>
    match s with
    | [] => ret (([], Some EOF), s)
    | _ => ret ((firstn p s, None), skipn p s)
    end.

(** [p[:n]] of a buffer [p] into which [bs] was read, for a count [n]
    that a callee reported.  A result has as many bytes as its count: a
    count beyond what was read takes in what the buffer held before,
    zero bytes here. *)
Definition counted (n : nat) (bs : list byte) : list byte :=
  firstn n bs ++ repeat x00 (n - length bs).

(** [io.TeeReader]: what was read is written to [w]; a failed write
    replaces the count and the error of the read by its own, whatever
    count it reports. *)
Definition teeReader_Read {St R : Type} (Read : readFn St R)
    (Write : list byte -> exec St (nat * option error)) : readFn St R :=
  fun r p =>
    '((bs, err), r') <- Read r p ;;
    if 0 <? length bs then
      '(n, werr) <- Write bs ;;
      match werr with
      | Some e => ret ((counted n bs, Some e), r')
      | None => ret ((bs, err), r')
      end
    else ret ((bs, err), r').

(** [io.Copy(ioutil.Discard, src)], that is [devNull.ReadFrom]: read into
    a buffer of [discardBufSize] bytes until an error comes; [io.EOF] is
    success. *)
Definition discardBufSize : nat := 8 * 1024.

Fixpoint ioCopyDiscard {St R : Type} (Read : readFn St R) (fuel : nat) (r : R)
  : exec St (option error * R) :=
  match fuel with
  | O => fun _ => None
  | S fuel' =>
      '((_, err), r') <- Read r discardBufSize ;;
      match err with
      | Some e => if error_eqb e EOF then ret (None, r') else ret (Some e, r')
      | None => ioCopyDiscard Read fuel' r'
      end
  end.

(** ** limitedReader *)

Record limitedReader (R : Type) : Type := {
  lr_r : R;                      (* r *)
  lr_n : Z;                      (* n, int64: bytes remaining *)
  lr_shortErr : option error     (* shortErr *)
}.

Definition limitedReader_Read {St R : Type} (Read : readFn St R)
  : readFn St (limitedReader R) :=
  fun l p =>
    if (lr_n l <=? 0)%Z then ret (([], Some EOF), l)
    else
      let p := if (Z.of_nat p >? lr_n l)%Z then Z.to_nat (lr_n l) else p in
      '((bs, err), r') <- Read (lr_r l) p ;;
      let n' := int64 (lr_n l - Z.of_nat (length bs)) in
      let l' := {| lr_r := r'; lr_n := n'; lr_shortErr := lr_shortErr l |} in
      if isEOF err && (n' >? 0)%Z then ret ((bs, lr_shortErr l), l')
      else ret ((bs, err), l').

Definition limitReader {R : Type} (r : R) (n : Z) (err : option error)
  : limitedReader R :=
  {| lr_r := r; lr_n := n; lr_shortErr := err |}.

(** ** Headers *)

Record FileHeader : Type := {
  Name : string;
  IsDir : bool;
  HostOS : Z;
  Attributes : Z;
  PackedSize : Z;
  UnPackedSize : Z;
  UnKnownSize : bool;
  ModificationTime : Z;
  CreationTime : Z;
  AccessTime : Z;
  Version : Z
}.

(** [C] is the state of a checksum sink, [Dec] a decoder selector. *)
Record fileBlockHeader (C Dec : Type) : Type := {
  first : bool;
  last : bool;
  solid : bool;
  winSize : N;
  cksum : option C;
  decoder : option Dec;
  key : list byte;
  iv : list byte;
  hdr : FileHeader               (* the embedded FileHeader *)
}.

(** ** The collaborators' interfaces *)

(** [fileChecksum]: an [io.Writer] with [valid]. *)
Class fileChecksum (C : Type) : Type := {
  ck_Write : C -> list byte -> (nat * option error) * C;
  valid : C -> bool
}.

(** [fileBlockReader], the part this file calls: [Read], [next] and
    [isSolid].  [next] answers a header or an error, never both. *)
Class fileBlockReader (C Dec B : Type) : Type := {
  fbr_Read : B -> nat -> result * B;
  fbr_next : B -> (fileBlockHeader C Dec + error) * B;
  isSolid : B -> bool
}.

(** Modelled from the spec: the decode layer [decodeReader], whose code is
    not in this file.  It is initialised with a reader, a decoder
    selector, a window size and a reset flag, and is a byte source
    thereafter; it pulls from the reader it was given, here the callback
    over an arbitrary state [X]. *)
Class decodeLayer (D Dec : Type) : Type := {
  dr_init : forall X : Type, (nat -> exec X result) ->
            D -> Dec -> N -> bool -> exec X (option error * D);
  dr_Read : forall X : Type, (nat -> exec X result) -> readFn X D
}.

(** Modelled from the spec: the decrypt layer [newAesDecryptReader], whose
    code is not in this file: built from a key and an iv, it is a byte
    source that pulls from the reader it wraps. *)
Class decryptLayer (A : Type) : Type := {
  newAes : list byte -> list byte -> A;
  aes_Read : forall X : Type, (nat -> exec X result) -> readFn X A
}.

Section Pipeline.

Context {C Dec B D A : Type}.
Context `{CK : fileChecksum C} `{FBR : fileBlockReader C Dec B}
        `{DL : decodeLayer D Dec} `{AES : decryptLayer A}.

(** ** packedFileReader *)

Record packedFileReader : Type := {
  pf_r : B;                      (* r *)
  pf_h : option (fileBlockHeader C Dec)           (* h, nil at first *)
}.

Definition nextBlockInFile (f : packedFileReader)
  : option error * packedFileReader :=
  let '(res, b) := fbr_next (pf_r f) in
  let f' := {| pf_r := b; pf_h := pf_h f |} in
  match res with
  | inr err =>
      if error_eqb err EOF then (Some errUnexpectedArcEnd, f')
      else (Some err, f')
  | inl h =>
      if first h then (Some errInvalidFileBlock, f')
      else
        match pf_h f with
        | None => (Some panicNilDeref, f')
        | Some cur =>
            if negb (String.eqb (Name (hdr h)) (Name (hdr cur)))
            then (Some errInvalidFileBlock, f')
            else (None, {| pf_r := b; pf_h := Some h |})
        end
  end.

(** The guarded loop of [next]: [if f.h != nil { for !f.h.last { ... } }]. *)
Fixpoint skipToLast (fuel : nat) (f : packedFileReader)
  : option (option error * packedFileReader) :=
  match pf_h f with
  | None => Some (None, f)
  | Some cur =>
      if last cur then Some (None, f)
      else
        match fuel with
        | O => None
        | S fuel' =>
            match nextBlockInFile f with
            | (Some err, f') => Some (Some err, f')
            | (None, f') => skipToLast fuel' f'
            end
        end
  end.

Definition packedFileReader_next (fuel : nat)
  : exec packedFileReader (fileBlockHeader C Dec + error) :=
  fun f =>
    match skipToLast fuel f with
    | None => None
    | Some (Some err, f') => Some (inr err, f')
    | Some (None, f') =>
        let '(res, b) := fbr_next (pf_r f') in
        match res with
        | inr err => Some (inr err, {| pf_r := b; pf_h := None |})
        | inl h =>
            let f'' := {| pf_r := b; pf_h := Some h |} in
            if negb (first h) then Some (inr errInvalidFileBlock, f'')
            else Some (inl h, f'')
        end
    end.

(** The loop [for err == io.EOF] of [Read], entered with the result of the
    last read of the block source. *)
Fixpoint packedRead_loop (fuel : nat) (p : nat) (res : result)
  : exec packedFileReader result :=
  fun f =>
    let '(bs, err) := res in
    if isEOF err then
      if 0 <? length bs then Some ((bs, None), f)
      else
        match pf_h f with
        | None => Some (([], Some EOF), f)
        | Some cur =>
            if last cur then Some (([], Some EOF), f)
            else
              match fuel with
              | O => None
              | S fuel' =>
                  match nextBlockInFile f with
                  | (Some e, f') => Some (([], Some e), f')
                  | (None, f') =>
                      let '(res', b) := fbr_Read (pf_r f') p in
                      packedRead_loop fuel' p res'
                        {| pf_r := b; pf_h := pf_h f' |}
                  end
              end
        end
    else Some (res, f).

Definition packedFileReader_Read (fuel : nat) (p : nat)
  : exec packedFileReader result :=
  fun f =>
    let '(res, b) := fbr_Read (pf_r f) p in
    packedRead_loop fuel p res {| pf_r := b; pf_h := pf_h f |}.

(** The walker stands on no file, or on the last block of its file. *)
Definition atLast (f : packedFileReader) : bool :=
  match pf_h f with
  | None => true
  | Some cur => last cur
  end.

(** [advances n f f']: from [f], [n] successful calls of [nextBlockInFile],
    each made on a block that is not the last, lead to [f'], where the
    loop of [next] stops. *)
Inductive advances : nat -> packedFileReader -> packedFileReader -> Prop :=
| adv_stop f : atLast f = true -> advances 0 f f
| adv_step n f f1 f2 :
    atLast f = false ->
    nextBlockInFile f = (None, f1) ->
    advances n f1 f2 ->
    advances (S n) f f2.

(** ** Reader *)

(** What a decoder or a decrypter reads from: [&r.pr], or the decrypter
    around it. *)
Inductive rawReader : Type :=
| RPacked
| RDecrypt (a : A).

(** Modelled from the spec: the fields of [decodeReader] this file relies
    on, its own state and the reader [init] was given. *)
Record decodeReader : Type := {
  dr_st : D;
  dr_src : rawReader
}.

(** The dynamic values of the field [r io.Reader].  [RRaw RPacked] is
    [&r.pr] and [RDecode] is [&r.dr]: both point into the [Reader], and
    [RTee] writes to the sink [r.cksum] points to.  [RLimit] carries the
    fields of its [limitedReader]. *)
Inductive reader : Type :=
| RBytes (s : list byte)
| RRaw (c : rawReader)
| RDecode
| RLimit (inner : reader) (n : Z) (shortErr : option error)
| RTee (inner : reader).

(** Ghost trace of the calls [Next] makes, in order. *)
Inductive event : Type :=
| EvSolidRead (n : nat) (err : option error)
| EvPackedNext
| EvDecodeInit (src : rawReader) (dec : Dec) (win : N) (reset : bool).

Record Reader : Type := {
  r : reader;
  pr : packedFileReader;
  dr : decodeReader;
  rd_cksum : option C;           (* cksum *)
  solidr : option reader;
  trace : list event             (* ghost *)
}.

Definition set_r (x : reader) (s : Reader) : Reader :=
  {| r := x; pr := pr s; dr := dr s; rd_cksum := rd_cksum s;
     solidr := solidr s; trace := trace s |}.
Definition set_pr (x : packedFileReader) (s : Reader) : Reader :=
  {| r := r s; pr := x; dr := dr s; rd_cksum := rd_cksum s;
     solidr := solidr s; trace := trace s |}.
Definition set_dr (x : decodeReader) (s : Reader) : Reader :=
  {| r := r s; pr := pr s; dr := x; rd_cksum := rd_cksum s;
     solidr := solidr s; trace := trace s |}.
Definition set_cksum (x : option C) (s : Reader) : Reader :=
  {| r := r s; pr := pr s; dr := dr s; rd_cksum := x;
     solidr := solidr s; trace := trace s |}.
Definition set_solidr (x : option reader) (s : Reader) : Reader :=
  {| r := r s; pr := pr s; dr := dr s; rd_cksum := rd_cksum s;
     solidr := x; trace := trace s |}.
Definition log (e : event) (s : Reader) : Reader :=
  {| r := r s; pr := pr s; dr := dr s; rd_cksum := rd_cksum s;
     solidr := solidr s; trace := trace s ++ [e] |}.

(** Reading [&r.pr] or the decrypter around it. *)
Definition raw_Read (fuel : nat) : readFn packedFileReader rawReader :=
  fun c p =>
    match c with
    | RPacked =>
        res <- packedFileReader_Read fuel p ;; ret (res, RPacked)
    | RDecrypt a =>
        '(res, a') <- aes_Read (packedFileReader_Read fuel) a p ;;
        ret (res, RDecrypt a')
    end.

(** The reader a decode layer pulls from, as a callback over the pair of
    its handle and the walker. *)
Definition src_Read (fuel : nat) (p : nat)
  : exec (rawReader * packedFileReader) result :=
  fun x =>
    match raw_Read fuel (fst x) p (snd x) with
    | None => None
    | Some ((res, c'), f') => Some (res, (c', f'))
    end.

(** Running a computation of the walker inside the [Reader]. *)
Definition on_pr {T : Type} (m : exec packedFileReader T) : exec Reader T :=
  fun s =>
    match m (pr s) with
    | None => None
    | Some (a, f') => Some (a, set_pr f' s)
    end.

(** Running a computation of the decode layer, over its source and the
    walker, inside the [Reader]. *)
Definition on_dr {T : Type} (src : rawReader)
    (m : exec (rawReader * packedFileReader) (T * D)) : exec Reader T :=
  fun s =>
    match m (src, pr s) with
    | None => None
    | Some ((a, d'), (c', f')) =>
        Some (a, set_dr {| dr_st := d'; dr_src := c' |} (set_pr f' s))
    end.

(** [h.cksum.Write] on the sink the [Reader] and the tee share. *)
Definition cksum_Write (bs : list byte) : exec Reader (nat * option error) :=
  fun s =>
    match rd_cksum s with
    | None => Some ((0, Some panicNilDeref), s)
    | Some c =>
        let '(res, c') := ck_Write c bs in
        Some (res, set_cksum (Some c') s)
    end.

Fixpoint reader_Read (fuel : nat) (x : reader) (p : nat)
  : exec Reader (result * reader) :=
  match x with
  | RBytes s =>
      '(res, s') <- bytesReader_Read s p ;; ret (res, RBytes s')
  | RRaw c =>
      '(res, c') <- on_pr (raw_Read fuel c p) ;; ret (res, RRaw c')
  | RDecode =>
      fun s =>
        (res <- on_dr (dr_src (dr s))
                  (dr_Read (src_Read fuel) (dr_st (dr s)) p) ;;
         ret (res, RDecode)) s
  | RLimit inner n shortErr =>
      '(res, l') <- limitedReader_Read (reader_Read fuel)
                      (limitReader inner n shortErr) p ;;
      ret (res, RLimit (lr_r l') (lr_n l') (lr_shortErr l'))
  | RTee inner =>
      '(res, inner') <- teeReader_Read (reader_Read fuel) cksum_Write
                          inner p ;;
      ret (res, RTee inner')
  end.

(** Line 184 of [Read]: [r.r.Read(p)]; the handle read comes back in
    [r.r]. *)
Definition chain_Read (fuel : nat) (p : nat) : exec Reader result :=
  fun s =>
    match reader_Read fuel (r s) p s with
    | None => None
    | Some ((res, x'), s') => Some (res, set_r x' s')
    end.

(** [Reader.Read]. *)
Definition Reader_Read (fuel : nat) (p : nat) : exec Reader result :=
  fun s =>
    match chain_Read fuel p s with
    | None => None
    | Some ((bs, err), s') =>
        if isEOF err
           && match rd_cksum s' with
              | Some c => negb (valid c)
              | None => false
              end
        then Some ((bs, Some errBadFileChecksum), s')
        else Some ((bs, err), s')
    end.

(** One [Read] of [io.Copy] on [r.solidr], recorded in the trace. *)
Definition solid_Read (fuel : nat) : readFn Reader reader :=
  fun x p s =>
    match reader_Read fuel x p s with
    | None => None
    | Some (((bs, err), x'), s') =>
        Some (((bs, err), x'), log (EvSolidRead (length bs) err) s')
    end.

(** Lines 193-198 of [Next]: the pending solid stream is read fully. *)
Definition drainSolid (fuel : nat) : exec Reader (option error) :=
  fun s =>
    match solidr s with
    | None => Some (None, s)
    | Some x =>
        match ioCopyDiscard (solid_Read fuel) fuel x s with
        | None => None
        | Some ((err, x'), s') => Some (err, set_solidr (Some x') s')
        end
    end.

(** Lines 213-222 of [Next]: the decode layer is initialised on [src], the
    reader assembled so far. *)
Definition initDecode (fuel : nat) (h : fileBlockHeader C Dec)
    (src : rawReader) : exec Reader (option error) :=
  fun s =>
    match decoder h with
    | None => Some (None, s)
    | Some dec =>
        let reset := negb (solid h) in
        match on_dr src
                (dr_init (src_Read fuel) (dr_st (dr s)) dec (winSize h) reset)
                (log (EvDecodeInit src dec (winSize h) reset) s) with
        | None => None
        | Some (Some e, s') =>
            (* r.r is still the reader [init] was given, as [init] left it *)
            Some (Some e, set_r (RRaw (dr_src (dr s'))) s')
        | Some (None, s') =>
            let s'' := set_r RDecode s' in
            if isSolid (pf_r (pr s'')) then
              Some (None, set_solidr (Some (r s'')) s'')
            else Some (None, s'')
        end
    end.

(** Lines 200-233 of [Next]: the walker is advanced and the chain of the
    new file is assembled. *)
Definition nextFile (fuel : nat) : exec Reader (FileHeader + error) :=
  fun s1 =>
    match on_pr (packedFileReader_next fuel) (log EvPackedNext s1) with
    | None => None
    | Some (inr e, s2) => Some (inr e, s2)
    | Some (inl h, s2) =>
        let s3 := set_solidr None s2 in
        let src :=
          if (0 <? length (key h)) && (0 <? length (iv h))
          then RDecrypt (newAes (key h) (iv h))
          else RPacked in
        let s4 := set_r (RRaw src) s3 in
        match initDecode fuel h src s4 with
        | None => None
        | Some (Some e, s5) => Some (inr e, s5)
        | Some (None, s5) =>
            let s6 :=
              if (UnPackedSize (hdr h) >=? 0)%Z
                 && negb (UnKnownSize (hdr h))
              then set_r (RLimit (r s5) (UnPackedSize (hdr h))
                            (Some errShortFile)) s5
              else s5 in
            let s7 := set_cksum (cksum h) s6 in
            let s8 :=
              match rd_cksum s7 with
              | Some _ => set_r (RTee (r s7)) s7
              | None => s7
              end in
            Some (inl (hdr h), s8)
        end
    end.

(** [Reader.Next]. *)
Definition Reader_Next (fuel : nat) : exec Reader (FileHeader + error) :=
  fun s0 =>
    match drainSolid fuel s0 with
    | None => None
    | Some (Some e, s1) => Some (inr e, s1)
    | Some (None, s1) => nextFile fuel s1
    end.

(** [Reader.init] on a zero [Reader]; [d0] is the state of the zero
    [decodeReader], which has no source yet ([RPacked] stands for it: the
    decode layer is not read before [Next] initialises it). *)
Definition Reader_init (d0 : D) (fbr : B) : Reader :=
  {| r := RBytes [];
     pr := {| pf_r := fbr; pf_h := None |};
     dr := {| dr_st := d0; dr_src := RPacked |};
     rd_cksum := None;
     solidr := None;
     trace := [] |}.

(** The trace of a run of reads of [r.solidr] that stops at the first
    error: calls that returned [pre] bytes without error, then one that
    returned [n] bytes and the error [e]. *)
Definition solidReads (pre : list nat) (n : nat) (e : error) : list event :=
  map (fun c => EvSolidRead c None) pre ++ [EvSolidRead n (Some e)].

(** Following the words of the spec, to compare the drain of [Next] with:
    the pending decode stream is read fully, to exhaustion, and its bytes
    are discarded.  The decode layer is read, by [dr_Read] itself and
    with a buffer of [k] bytes, until a call returns an error; what is
    answered are the counts of the calls before that one, its count and
    its error, and the decode layer that is left. *)
Fixpoint spec_exhaust (fuel rounds k : nat) (d : D)
  : exec (rawReader * packedFileReader) (list nat * nat * error * D) :=
  match rounds with
  | O => fun _ => None
  | S rounds' =>
      '((bs, err), d') <- dr_Read (src_Read fuel) d k ;;
      match err with
      | Some e => ret ([], length bs, e, d')
      | None =>
          '(pre, n, e, d'') <- spec_exhaust fuel rounds' k d' ;;
          ret (length bs :: pre, n, e, d'')
      end
  end.

(** The [Reader] after the decode layer was read to its first error:
    the walker and the decode layer are where those reads left them, and
    nothing else has changed but the trace. *)
Definition drained (s : Reader) (pre : list nat) (n : nat) (e : error)
    (d1 : D) (c1 : rawReader) (f1 : packedFileReader) : Reader :=
  {| r := r s; pr := f1; dr := {| dr_st := d1; dr_src := c1 |};
     rd_cksum := rd_cksum s; solidr := solidr s;
     trace := trace s ++ solidReads pre n e |}.





End Pipeline.

Arguments packedFileReader : clear implicits.
Arguments rawReader : clear implicits.
Arguments reader : clear implicits.
Arguments decodeReader : clear implicits.
Arguments event : clear implicits.
Arguments Reader : clear implicits.

(** ** Reading to exhaustion *)

(** A method [Read] whose object is the whole state, as a reader with a
    trivial handle. *)
Definition asReader {St : Type} (m : nat -> exec St result) : readFn St unit :=
  fun _ p => res <- m p ;; ret (res, tt).

(** A consumer that reads with buffers of [k] bytes until a call returns
    an error: it answers every byte it was handed, that error, and the
    reader and state left. *)
Fixpoint readAll {St R : Type} (Read : readFn St R) (fuel : nat) (k : nat)
    (x : R) : exec St (list byte * error * R) :=
  match fuel with
  | O => fun _ => None
  | S fuel' =>
      '((bs, err), x') <- Read x k ;;
      match err with
      | Some e => ret (bs, e, x')
      | None =>
          '(rest, e, x'') <- readAll Read fuel' k x' ;;
          ret (bs ++ rest, e, x'')
      end
  end.

(** The results of the successive calls of such a consumer. *)
Fixpoint readCalls {St R : Type} (Read : readFn St R) (fuel : nat) (k : nat)
    (x : R) : exec St (list result * R) :=
  match fuel with
  | O => fun _ => None
  | S fuel' =>
      '((bs, err), x') <- Read x k ;;
      match err with
      | Some e => ret ([(bs, err)], x')
      | None =>
          '(rest, x'') <- readCalls Read fuel' k x' ;;
          ret ((bs, err) :: rest, x'')
      end
  end.

(** The calls [Read(p)] for the buffer sizes [ps], one after the other,
    whatever they return. *)
Fixpoint readEach {St : Type} (Read : nat -> exec St result) (ps : list nat)
  : exec St (list result) :=
  match ps with
  | [] => ret []
  | p :: ps' =>
      res <- Read p ;; rest <- readEach Read ps' ;; ret (res :: rest)
  end.

(** How many of the calls reported [errBadFileChecksum]. *)
Definition countBad (calls : list result) : nat :=
  length (filter (fun c => match snd c with
                           | Some e => error_eqb e errBadFileChecksum
                           | None => false
                           end) calls).

(** ** Models of the surroundings *)

(** A finite [io.Reader]: it hands out [s_data] in order and then answers
    [(0, io.EOF)].  The [io.Reader] contract leaves two freedoms, both
    kept: a call may return fewer bytes than asked (here at most
    [S s_chunk]), and the call that hands out the last byte may report
    [io.EOF] with it ([s_eager]) or leave it to the next call. *)
Record source : Type := {
  s_data : list byte;
  s_chunk : nat;
  s_eager : bool
}.

Definition mkSource (data : list byte) (chunk : nat) (eager : bool) : source :=
  {| s_data := data; s_chunk := chunk; s_eager := eager |}.

Definition source_step (s : source) (p : nat) : result * source :=
  match s_data s with
  | [] => (([], Some EOF), s)
  | _ =>
      let n := Nat.min p (S (s_chunk s)) in
      let rest := skipn n (s_data s) in
      let s' := {| s_data := rest; s_chunk := s_chunk s;
                   s_eager := s_eager s |} in
      match rest with
      | [] => ((firstn n (s_data s), if s_eager s then Some EOF else None), s')
      | _ => ((firstn n (s_data s), None), s')
      end
  end.

Definition source_Read {St : Type} : readFn St source :=
  fun s p => let '(res, s') := source_step s p in ret (res, s').

(** Modelled from the spec: the block source.  It supplies, on demand, the
    next physical block's record and raw bytes, and knows whether the
    archive is solid: [a_cur] is the current block's payload as a
    [source], [a_blocks] the records and payloads still to come. *)
Record archive (C Dec : Type) : Type := {
  a_cur : source;
  a_blocks : list (fileBlockHeader C Dec * list byte);
  a_solid : bool
}.

Definition archive_Read {C Dec : Type} (a : archive C Dec) (p : nat)
  : result * archive C Dec :=
  let '(res, s') := source_step (a_cur a) p in
  (res, {| a_cur := s'; a_blocks := a_blocks a; a_solid := a_solid a |}).

Definition archive_next {C Dec : Type} (a : archive C Dec)
  : (fileBlockHeader C Dec + error) * archive C Dec :=
  match a_blocks a with
  | [] => (inr EOF, a)
  | (h, payload) :: rest =>
      (inl h,
       {| a_cur := {| s_data := payload; s_chunk := s_chunk (a_cur a);
                      s_eager := s_eager (a_cur a) |};
          a_blocks := rest; a_solid := a_solid a |})
  end.

#[export] Instance archive_fileBlockReader (C Dec : Type)
  : fileBlockReader C Dec (archive C Dec) :=
  {| fbr_Read := archive_Read; fbr_next := archive_next;
     isSolid := @a_solid C Dec |}.

(** An archive not yet advanced to its first block. *)
Definition newArchive {C Dec : Type} (chunk : nat) (eager solid : bool)
    (blocks : list (fileBlockHeader C Dec * list byte)) : archive C Dec :=
  {| a_cur := {| s_data := []; s_chunk := chunk; s_eager := eager |};
     a_blocks := blocks; a_solid := solid |}.

(** The blocks [rest] continue the file of the record [cur] and end it. *)
Fixpoint chainOk {C Dec : Type} (cur : fileBlockHeader C Dec)
    (rest : list (fileBlockHeader C Dec * list byte)) : bool :=
  match rest with
  | [] => last cur
  | (h, _) :: rest' =>
      negb (last cur) && negb (first h)
      && String.eqb (Name (hdr h)) (Name (hdr cur)) && chainOk h rest'
  end.

Fixpoint chainEnd {C Dec : Type} (cur : fileBlockHeader C Dec)
    (rest : list (fileBlockHeader C Dec * list byte)) : fileBlockHeader C Dec :=
  match rest with
  | [] => cur
  | (h, _) :: rest' => chainEnd h rest'
  end.

Fixpoint chainEndPayload {C Dec : Type} (payload : list byte)
    (rest : list (fileBlockHeader C Dec * list byte)) : list byte :=
  match rest with
  | [] => payload
  | (_, pl) :: rest' => chainEndPayload pl rest'
  end.

(** A walker over an [archive]: current record, unread payload of the
    current block, read policy, blocks to come. *)
Definition walker {C Dec : Type} (chunk : nat) (eager solid : bool)
    (cur : option (fileBlockHeader C Dec)) (payload : list byte)
    (blocks : list (fileBlockHeader C Dec * list byte))
  : packedFileReader C Dec (archive C Dec) :=
  {| pf_r := {| a_cur := mkSource payload chunk eager; a_blocks := blocks;
                a_solid := solid |};
     pf_h := cur |}.

(** A checksum sink: the sum of the bytes written, modulo 256, against
    the expected value. *)
Record sumCheck : Type := {
  sc_acc : N;
  sc_want : N
}.

#[export] Instance sumCheck_fileChecksum : fileChecksum sumCheck :=
  {| ck_Write := fun c bs =>
       ((length bs, None),
        {| sc_acc := fold_left (fun a b => (a + Byte.to_N b) mod 256)%N bs
                       (sc_acc c);
           sc_want := sc_want c |});
     valid := fun c => (sc_acc c =? sc_want c)%N |}.

(** A decode layer that stores: it passes the bytes of its source through
    and counts them; a reset clears the count.  Selector [0] is not
    supported. *)
#[export] Instance storeDecode : decodeLayer nat nat :=
  {| dr_init := fun X _ d dec _ reset =>
       match dec with
       | O => ret (Some (errCollab 1), d)
       | _ => ret (None, if reset then 0 else d)
       end;
     dr_Read := fun X Read d p =>
       res <- Read p ;; ret (res, d + length (fst res)) |}.

(** A decrypt layer that xors every byte with the first byte of the key. *)
Definition xorByte (k b : byte) : byte :=
  match Byte.of_N (N.lxor (Byte.to_N k) (Byte.to_N b)) with
  | Some x => x
  | None => b
  end.

#[export] Instance xorDecrypt : decryptLayer byte :=
  {| newAes := fun key _ => hd x00 key;
     aes_Read := fun X Read a p =>
       res <- Read p ;; ret ((map (xorByte a) (fst res), snd res), a) |}.

(** ** A sample archive *)

Definition sampleFile (name : string) (size : Z) : FileHeader :=
  {| Name := name; IsDir := false; HostOS := 3; Attributes := 32;
     PackedSize := 0; UnPackedSize := size; UnKnownSize := false;
     ModificationTime := 0; CreationTime := 0; AccessTime := 0;
     Version := 0 |}.

Definition sampleBlock (f l sol : bool) (want : option N) (dec : option nat)
    (name : string) (size : Z) : fileBlockHeader sumCheck nat :=
  {| first := f; last := l; solid := sol; winSize := 20;
     cksum := option_map (fun w => {| sc_acc := 0; sc_want := w |}) want;
     decoder := dec; key := []; iv := []; hdr := sampleFile name size |}.

(** The file [a.txt] in three blocks, the second empty, its data padded
    by one byte and its checksum right; then the solid file [b.txt] in one
    block, padded too, its checksum wrong. *)
Definition blockA1 := sampleBlock true false false (Some 239%N) (Some 29) "a.txt" 5.
Definition blockA2 := sampleBlock false false false None None "a.txt" 5.
Definition blockA3 := sampleBlock false true false None None "a.txt" 5.
Definition blockB1 := sampleBlock true true true (Some 1%N) (Some 29) "b.txt" 2.

Definition sampleBlocks : list (fileBlockHeader sumCheck nat * list byte) :=
  [ (blockA1, [x61; x62]);
    (blockA2, []);
    (blockA3, [x63; x64; x65; x66]);
    (blockB1, [x67; x68; x69]) ].

Definition sampleReader : Type :=
  Reader sumCheck nat (archive sumCheck nat) nat byte.

(** The state a computation leaves. *)
Definition stateAfter {St T : Type} (m : exec St T) (s : St) : St :=
  match m s with
  | Some (_, s') => s'
  | None => s
  end.

(** A fresh reader; on [a.txt]; one byte of it read; its solid stream
    drained; on [b.txt]; [b.txt] read up to its size. *)
Definition sample0 : sampleReader :=
  Reader_init 0 (newArchive 2 true true sampleBlocks).
Definition sample1 : sampleReader := stateAfter (Reader_Next 10) sample0.
Definition sample2 : sampleReader := stateAfter (Reader_Read 10 1) sample1.
Definition sample2d : sampleReader := stateAfter (drainSolid 10) sample2.
Definition sample3 : sampleReader := stateAfter (Reader_Next 10) sample2.
Definition sample4 : sampleReader := stateAfter (Reader_Read 10 5) sample3.
Definition sample5 : sampleReader := stateAfter (chain_Read 10 5) sample4.


(** * Further definitions *)

(** A reader keeps the [io.Reader] contract on counts: no call returns
    more bytes than its buffer holds. *)
Definition withinBuffer {St R : Type} (Read : readFn St R) : Prop :=
  forall x p st bs err x' st',
    Read x p st = Some ((bs, err), x', st') -> length bs <= p.

(** ** Finite streams *)

(** [streamStep Read I e F]: [I x st data] says that the reader [x], in
    state [st], still has exactly [data] to hand out before it ends with
    the error [e].  Every call with a non-empty buffer either hands out a
    non-empty piece without error and keeps [I] for the rest, or hands out
    all that is left together with [e], after which [F] holds. *)
Definition streamStep {St R : Type} (Read : readFn St R)
    (I : R -> St -> list byte -> Prop) (e : error) (F : R -> St -> Prop)
  : Prop :=
  forall x st data p,
    I x st data -> 0 < p ->
    exists bs err x' st',
      Read x p st = Some ((bs, err), x', st')
      /\ length bs <= p
      /\ ((err = None /\ bs <> []
           /\ exists rest, data = bs ++ rest /\ I x' st' rest)
          \/ (err = Some e /\ data = bs /\ F x' st')).

(** What is left to hand out under a bounded reader: the first [lr_n]
    bytes of what its inner reader has left; [short] tells whether the
    inner reader will run out first. *)
Definition boundedLeft {St R : Type} (I : R -> St -> list byte -> Prop)
    (e : error) (short : bool) (l : limitedReader R) (st : St)
    (data : list byte) : Prop :=
  exists inner,
    I (lr_r l) st inner
    /\ data = firstn (Z.to_nat (lr_n l)) inner
    /\ (0 <= lr_n l < 2 ^ 63)%Z
    /\ (Z.of_nat (length inner) <? lr_n l)%Z = short
    /\ lr_shortErr l = Some e.

Section StreamDefs.
Context {C Dec B D A : Type}.
Context `{CK : fileChecksum C}.

(** There is a checksum tee in the chain. *)
Fixpoint hasTee (x : reader A) : bool :=
  match x with
  | RTee _ => true
  | RLimit inner _ _ => hasTee inner
  | _ => false
  end.

(** A sink that digests a stream: a write never fails, and what the sink
    holds depends on the bytes written, not on how they were cut into
    writes. *)
Definition sinkSound : Prop :=
  (forall (c : C) bs, fst (ck_Write c bs) = (length bs, None))
  /\ (forall (c : C) a b,
        snd (ck_Write c (a ++ b)) = snd (ck_Write (snd (ck_Write c a)) b))
  /\ (forall c : C, snd (ck_Write c []) = c).

(** A sink keeps the count contract of [io.Writer] when it fails: it
    reports no more bytes than it was given. *)
Definition sinkWithin : Prop :=
  forall (c : C) bs n e c',
    ck_Write c bs = ((n, Some e), c') -> n <= length bs.

(** [Read] will turn [io.EOF] into [errBadFileChecksum] in this state. *)
Definition checksumBad (s : Reader C Dec B D A) : bool :=
  match rd_cksum s with
  | Some c => negb (valid c)
  | None => false
  end.

(** What is left under [RLimit]. *)
Definition limitLeft (I : reader A -> Reader C Dec B D A -> list byte -> Prop)
    (e : error) (short : bool) (x : reader A) (s : Reader C Dec B D A)
    (data : list byte) : Prop :=
  exists inner n,
    x = RLimit inner n (Some e)
    /\ boundedLeft I e short (limitReader inner n (Some e)) s data.

(** What is left under [RTee]; [bad] tells whether the sink will be
    invalid once it has been written all of it. *)
Definition teeLeft (I : reader A -> Reader C Dec B D A -> list byte -> Prop)
    (bad : bool) (x : reader A) (s : Reader C Dec B D A) (data : list byte)
  : Prop :=
  exists inner c,
    x = RTee inner /\ I inner s data /\ rd_cksum s = Some c
    /\ negb (valid (snd (ck_Write c data))) = bad.

(** What is left for [Reader.Read]: what is left in [r.r]. *)
Definition readerLeft (I : reader A -> Reader C Dec B D A -> list byte -> Prop)
    (u : unit) (s : Reader C Dec B D A) (data : list byte) : Prop :=
  I (r s) s data.

(** [I] looks neither at [r.r] nor at the checksum sink, and holds of
    chains without a tee only. *)
Definition rawInv (I : reader A -> Reader C Dec B D A -> list byte -> Prop)
  : Prop :=
  (forall x s data y, I x s data -> I x (set_r y s) data)
  /\ (forall x s data c, I x s data -> I x (set_cksum c s) data)
  /\ (forall x s data, I x s data -> hasTee x = false).

End StreamDefs.

(** What is left in [&r.pr] over an [archive]: the rest of the current
    block and the blocks that continue the file. *)
Definition packedLeft {C Dec D A : Type} (fi : nat)
    (others : list (fileBlockHeader C Dec * list byte))
    (x : reader A) (s : Reader C Dec (archive C Dec) D A) (data : list byte)
  : Prop :=
  x = RRaw RPacked
  /\ exists chunk eager solid cur payload chain,
       pr s = walker chunk eager solid (Some cur) payload (chain ++ others)
       /\ chainOk cur chain = true
       /\ length chain <= fi
       /\ data = payload ++ concat (map snd chain).

Section StoredDefs.
Context {C Dec A : Type} `{CK : fileChecksum C}.

(** [Next] bounds the file by its declared size. *)
Definition isBoundedFile (fh : FileHeader) : bool :=
  (UnPackedSize fh >=? 0)%Z && negb (UnKnownSize fh).

(** The size bound and the checksum tee [Next] puts around [base] for the
    record [h]. *)
Definition chainOver (base : reader A) (h : fileBlockHeader C Dec)
  : reader A :=
  let lim :=
    if isBoundedFile (hdr h)
    then RLimit base (UnPackedSize (hdr h)) (Some errShortFile)
    else base in
  match cksum h with
  | Some _ => RTee lim
  | None => lim
  end.

(** The chain [Next] assembles for a file that is neither encrypted nor
    compressed. *)
Definition storedChain (h : fileBlockHeader C Dec) : reader A :=
  chainOver (RRaw RPacked) h.

(** What the reader of such a file delivers of the packed [stream], and
    the error that ends it. *)
Definition delivered (h : fileBlockHeader C Dec) (stream : list byte)
  : list byte :=
  if isBoundedFile (hdr h)
  then firstn (Z.to_nat (UnPackedSize (hdr h))) stream
  else stream.

Definition isShort (h : fileBlockHeader C Dec) (stream : list byte) : bool :=
  isBoundedFile (hdr h)
  && (Z.of_nat (length stream) <? UnPackedSize (hdr h))%Z.

Definition finalError (h : fileBlockHeader C Dec) (stream : list byte)
  : error :=
  if isShort h stream then errShortFile
  else
    match cksum h with
    | Some c =>
        if valid (snd (ck_Write c (delivered h stream))) then EOF
        else errBadFileChecksum
    | None => EOF
    end.

(** The blocks [chain0] end the file the walker stands on, if any. *)
Definition startOk (cur0 : option (fileBlockHeader C Dec))
    (chain0 : list (fileBlockHeader C Dec * list byte)) : bool :=
  match cur0 with
  | None => match chain0 with [] => true | _ => false end
  | Some c => chainOk c chain0
  end.

End StoredDefs.

Section WalkerMoreDefs.
Context {C Dec B : Type} `{FBR : fileBlockReader C Dec B}.

(** The block source never answers with the nil-dereference panic, which
    is not an error value. *)
Definition sourceNoPanic : Prop :=
  (forall (b : B) q bs b', fbr_Read b q <> ((bs, Some panicNilDeref), b'))
  /\ (forall (b b' : B), fbr_next b <> (inr panicNilDeref, b')).

(** The block source keeps the count contract of [io.Reader]. *)
Definition sourceWithin : Prop :=
  forall (b : B) q bs err b', fbr_Read b q = ((bs, err), b') -> length bs <= q.

(** The file the walker stands on, by name. *)
Definition currentName (f : packedFileReader C Dec B) : option string :=
  option_map (fun cur => Name (hdr cur)) (pf_h f).
End WalkerMoreDefs.

Section ReaderMoreDefs.
Context {C Dec B D A : Type}.
Context `{DL : decodeLayer D Dec} `{AES : decryptLayer A}.

(** The shapes [Next] and [init] give to [r.r]: the walker, a decrypter,
    the decode layer or the empty [bytes.Reader], under an optional size
    bound with [errShortFile], under an optional tee. *)
Definition isBase (x : reader A) : bool :=
  match x with
  | RBytes [] => true
  | RRaw _ => true
  | RDecode => true
  | _ => false
  end.

Definition isLim (x : reader A) : bool :=
  match x with
  | RLimit inner _ (Some errShortFile) => isBase inner
  | _ => isBase x
  end.

Definition shapeOK (x : reader A) : bool :=
  match x with
  | RTee inner => isLim inner
  | _ => isLim x
  end.

(** [r.r] has one of these shapes, a tee in it has a sink to write to,
    and the pending solid stream, if any, is the decode layer. *)
Definition wfReader (s : Reader C Dec B D A) : Prop :=
  shapeOK (r s) = true
  /\ (hasTee (r s) = true -> rd_cksum s <> None)
  /\ (solidr s = None \/ solidr s = Some RDecode).

(** The decode and decrypt layers keep the count contract of
    [io.Reader] when the reader they pull from does. *)
Definition countsOK {X : Type} (cb : nat -> exec X result) : Prop :=
  forall q st bs err st',
    cb q st = Some ((bs, err), st') -> length bs <= q.

Definition decodeWithin : Prop :=
  forall (X : Type) (cb : nat -> exec X result),
    countsOK cb ->
    forall (d : D) p st bs err d' st',
      dr_Read cb d p st = Some ((bs, err), d', st') -> length bs <= p.

Definition decryptWithin : Prop :=
  forall (X : Type) (cb : nat -> exec X result),
    countsOK cb ->
    forall (a : A) p st bs err a' st',
      aes_Read cb a p st = Some ((bs, err), a', st') -> length bs <= p.

End ReaderMoreDefs.

Section EnumDefs.
Context {C Dec B : Type} `{FBR : fileBlockReader C Dec B}.

(** A caller that asks for the next file until [next] fails: the records
    returned, the error that ended the run, the walker left. *)
Fixpoint nextAll (fuel n : nat) (f : packedFileReader C Dec B)
  : option (list (fileBlockHeader C Dec) * error * packedFileReader C Dec B) :=
  match n with
  | O => None
  | S n' =>
      match packedFileReader_next fuel f with
      | None => None
      | Some (inr e, f') => Some ([], e, f')
      | Some (inl h, f') =>
          match nextAll fuel n' f' with
          | None => None
          | Some (hs, e, f'') => Some (h :: hs, e, f'')
          end
      end
  end.
End EnumDefs.

(** A file of an archive: its first record and payload, and the blocks
    that continue it. *)
Definition fileBlocks (C Dec : Type) : Type :=
  (fileBlockHeader C Dec * list byte
   * list (fileBlockHeader C Dec * list byte))%type.

Definition fileFirst {C Dec : Type} (fb : fileBlocks C Dec)
  : fileBlockHeader C Dec := fst (fst fb).

Definition fileOk {C Dec : Type} (fb : fileBlocks C Dec) : bool :=
  first (fileFirst fb) && chainOk (fileFirst fb) (snd fb).

(** The blocks of the files, in the order of the archive. *)
Definition flatten {C Dec : Type} (files : list (fileBlocks C Dec))
  : list (fileBlockHeader C Dec * list byte) :=
  flat_map (fun fb => (fileFirst fb, snd (fst fb)) :: snd fb) files.

Unset Implicit Arguments.

(** * tag/id.go: identifying the format of tagged audio data *)

Module Tag.

(** The constants of package [tag] that [id.go] names, and the zero value
    of each type, which a bare [return] leaves in a result that was not
    set. *)
Inductive Format : Type :=
| FormatZero | ID3v1 | ID3v2_2 | ID3v2_3 | ID3v2_4 | AAC | VORBIS.

Inductive FileType : Type :=
| FileTypeZero | MP3 | MP4 | FLAC | OGG.

(** An error of the [io.ReadSeeker], whatever it is. *)
Inductive ioError : Type :=
| ioEOF | ErrUnexpectedEOF | errNegativePosition | ioOther (code : nat).

(** [ErrNoTagsFound], the two errors [Identify] makes with [fmt.Errorf],
    and an error of the seeker returned as it is.  [panicBounds] is the
    run-time panic of a slice expression out of range, not an error
    value. *)
Inductive tagError : Type :=
| ErrNoTagsFound
| errSeekBack (cause : ioError)
| errID3Version (v : N)
| errIO (e : ioError)
| panicBounds.

Inductive whence : Type := SEEK_SET | SEEK_CUR | SEEK_END.

(** Taken as parameters: [Seek] of the [io.ReadSeeker], and the helpers
    [readBytes] and [readString] of package [tag], which [id.go] calls
    and does not define.  A string is its bytes. *)
Class readSeeker (S : Type) : Type := {
  readBytes : S -> nat -> (list byte + ioError) * S;
  readString : S -> nat -> (list byte + ioError) * S;
  Seek : S -> Z -> whence -> (Z + ioError) * S
}.

Fixpoint bytes_eqb (a b : list byte) : bool :=
  match a, b with
  | [], [] => true
  | x :: a', y :: b' => Byte.eqb x y && bytes_eqb a' b'
  | _, _ => false
  end.

(** [b[lo:hi]] within the length of [b]. *)
Definition slice (b : list byte) (lo hi : nat) : list byte :=
  firstn (hi - lo) (skipn lo b).

(** A bare [return] after [err] was set: the other results are zero. *)
Definition failed {S : Type} (e : tagError) (r : S)
  : (Format * FileType * option tagError) * S :=
  ((FormatZero, FileTypeZero, Some e), r).

(** [Identify].  The cases of the [switch] are tried in order; [b[0:4]]
    and [b[4:11]] panic on a slice that is too short, its capacity taken
    to be its length. *)
Definition Identify {S : Type} `{readSeeker S} (r : S)
  : (Format * FileType * option tagError) * S :=
  match readBytes r 11 with
  | (inr e, r) => failed (errIO e) r
  | (inl b, r) =>
      match Seek r (-11) SEEK_CUR with
      | (inr e, r) => failed (errSeekBack e) r
      | (inl _, r) =>
          if length b <? 4 then failed panicBounds r
          else if bytes_eqb (slice b 0 4) (list_byte_of_string "fLaC")
          then ((VORBIS, FLAC, None), r)
          else if bytes_eqb (slice b 0 4) (list_byte_of_string "OggS")
          then ((VORBIS, OGG, None), r)
          else if length b <? 11 then failed panicBounds r
          else if bytes_eqb (slice b 4 11) (list_byte_of_string "ftypM4A")
          then ((AAC, MP4, None), r)
          else if bytes_eqb (slice b 0 3) (list_byte_of_string "ID3")
          then
            let v := Byte.to_N (nth 0 (skipn 3 b) x00) in
            if (v =? 2)%N then ((ID3v2_2, MP3, None), r)
            else if (v =? 3)%N then ((ID3v2_3, MP3, None), r)
            else if (v =? 4)%N then ((ID3v2_4, MP3, None), r)
            else failed (errID3Version v) r
          else
            match Seek r (-128) SEEK_END with
            | (inr e, r) => failed (errIO e) r
            | (inl n, r) =>
                match readString r 3 with
                | (inr e, r) => failed (errIO e) r
                | (inl tag, r) =>
                    match Seek r (- n) SEEK_CUR with
                    | (inr e, r) => failed (errIO e) r
                    | (inl _, r) =>
                        if negb (bytes_eqb tag (list_byte_of_string "TAG"))
                        then failed ErrNoTagsFound r
                        else ((ID3v1, MP3, None), r)
                    end
                end
            end
      end
  end.

(** The results [Identify] returns without error. *)
Definition identified : list (Format * FileType) :=
  [ (VORBIS, FLAC); (VORBIS, OGG); (AAC, MP4);
    (ID3v2_2, MP3); (ID3v2_3, MP3); (ID3v2_4, MP3); (ID3v1, MP3) ].

(** The header starts with one of the magic numbers [Identify] knows. *)
Definition hasMagic (b : list byte) : bool :=
  bytes_eqb (slice b 0 4) (list_byte_of_string "fLaC")
  || bytes_eqb (slice b 0 4) (list_byte_of_string "OggS")
  || bytes_eqb (slice b 4 11) (list_byte_of_string "ftypM4A")
  || bytes_eqb (slice b 0 3) (list_byte_of_string "ID3").

(** ** What the callees promise *)

(** A successful [readBytes] returns as many bytes as were asked for. *)
Definition readsInFull (S : Type) `{readSeeker S} : Prop :=
  forall (r : S) n b r', readBytes r n = (inl b, r') -> length b = n.

(** The offset a seek starts from. *)
Definition whenceBase {S : Type} (pos size : S -> Z) (r : S) (w : whence)
  : Z :=
  match w with
  | SEEK_SET => 0
  | SEEK_CUR => pos r
  | SEEK_END => size r
  end.

(** The contract of [io.Seeker] for a seeker with a position and a size:
    a seek returns the new offset from the start and leaves the position
    there; a seek to before the start is an error; reading [n] bytes
    moves the position [n] further. *)
Record seekerLaws (S : Type) `{readSeeker S} (pos size : S -> Z) : Prop := {
  law_Seek : forall (r : S) off w p r',
    Seek r off w = (inl p, r') ->
    p = (whenceBase pos size r w + off)%Z /\ pos r' = p /\ size r' = size r;
  law_Seek_before : forall (r : S) off w p r',
    Seek r off w = (inl p, r') -> (0 <= p)%Z;
  law_readBytes : forall (r : S) n b r',
    readBytes r n = (inl b, r') ->
    length b = n /\ pos r' = (pos r + Z.of_nat n)%Z /\ size r' = size r;
  law_readString : forall (r : S) n b r',
    readString r n = (inl b, r') ->
    pos r' = (pos r + Z.of_nat n)%Z /\ size r' = size r
}.

(** ** A seeker over bytes in memory *)

(** A position over the data, which a seek may put beyond the end but not
    before the start. *)
Record memFile : Type := {
  mf_data : list byte;
  mf_pos : Z
}.

Definition mf_size (f : memFile) : Z := Z.of_nat (length (mf_data f)).

Definition mem_Seek (f : memFile) (offset : Z) (w : whence)
  : (Z + ioError) * memFile :=
  let abs := (whenceBase mf_pos mf_size f w + offset)%Z in
  if (abs <? 0)%Z then (inr errNegativePosition, f)
  else (inl abs, {| mf_data := mf_data f; mf_pos := abs |}).

(** What is left to read from the position on. *)
Definition mem_rest (f : memFile) : list byte :=
  skipn (Z.to_nat (mf_pos f)) (mf_data f).

(** Reading in full: [n] bytes, or [io.EOF] when nothing is left, or
    [io.ErrUnexpectedEOF] after reading the less than [n] bytes that were
    left. *)
Definition mem_readBytes (f : memFile) (n : nat)
  : (list byte + ioError) * memFile :=
  match n with
  | O => (inl [], f)
  | _ =>
      match mem_rest f with
      | [] => (inr ioEOF, f)
      | rest =>
          if length rest <? n
          then (inr ErrUnexpectedEOF,
                {| mf_data := mf_data f;
                   mf_pos := mf_pos f + Z.of_nat (length rest) |})
          else (inl (firstn n rest),
                {| mf_data := mf_data f; mf_pos := mf_pos f + Z.of_nat n |})
      end
  end.

#[export] Instance memFile_readSeeker : readSeeker memFile :=
  {| readBytes := mem_readBytes; readString := mem_readBytes;
     Seek := mem_Seek |}.

End Tag.

(** ** More samples *)

(** What a [source] has left. *)
Definition sourceLeft {St : Type} (s : source) (st : St) (data : list byte)
  : Prop :=
  s_data s = data.

(** A stored file [s.bin] in two blocks, one byte of padding after its
    three bytes, its checksum right; then a stored file [t.bin] that
    declares nine bytes and has one. *)
Definition blockS1 := sampleBlock true false false (Some 38%N) None "s.bin" 3.
Definition blockS2 := sampleBlock false true false None None "s.bin" 3.
Definition blockT1 := sampleBlock true true false None None "t.bin" 9.

Definition storedBlocks : list (fileBlockHeader sumCheck nat * list byte) :=
  [ (blockS1, [x61]); (blockS2, [x62; x63; x64]); (blockT1, [x65]) ].

Definition stored0 : sampleReader :=
  Reader_init 0 (newArchive 1 false false storedBlocks).

(** Audio data in memory: a FLAC stream, read from its start; twenty
    bytes, [TAG] and 125 more, read from offset 5. *)
Definition flacFile : Tag.memFile :=
  {| Tag.mf_data := list_byte_of_string "fLaC" ++ repeat x00 30;
     Tag.mf_pos := 0 |}.

Definition id3v1File : Tag.memFile :=
  {| Tag.mf_data :=
       repeat x00 20 ++ list_byte_of_string "TAG" ++ repeat x00 125;
     Tag.mf_pos := 5 |}.

Set Implicit Arguments.

(** * Properties *)

Unset Implicit Arguments.

(** ** Basic facts *)

Lemma error_eqb_eq (a b : error) : error_eqb a b = true <-> a = b.
Proof.
  split.
  - destruct a, b; simpl; try discriminate; try reflexivity.
    intros H. apply Nat.eqb_eq in H. now subst.
  - intros ->. destruct b; simpl; auto using Nat.eqb_refl.
Qed.

Lemma isEOF_true (err : option error) : isEOF err = true <-> err = Some EOF.
Proof.
  destruct err as [e|]; simpl.
  - rewrite error_eqb_eq. split; congruence.
  - split; discriminate.
Qed.

Lemma isEOF_false (err : option error) :
  isEOF err = false <-> err <> Some EOF.
Proof.
  rewrite <- isEOF_true. destruct (isEOF err); split; congruence.
Qed.

Lemma int64_small (z : Z) :
  (- 2 ^ 63 <= z < 2 ^ 63)%Z -> int64 z = z.
Proof.
  intros H. unfold int64. rewrite Z.mod_small; lia.
Qed.

Lemma firstn_add_skipn {T : Type} (m j : nat) (l : list T) :
  firstn (m + j) l = firstn m l ++ firstn j (skipn m l).
Proof.
  revert l. induction m as [|m IH]; intros l; simpl.
  - reflexivity.
  - destruct l as [|a l]; simpl.
    + now rewrite firstn_nil.
    + now rewrite IH.
Qed.

Lemma skipn_nil_iff {T : Type} (n : nat) (l : list T) :
  skipn n l = [] <-> length l <= n.
Proof.
  split; intros H.
  - assert (E : length (skipn n l) = 0) by now rewrite H.
    rewrite length_skipn in E. lia.
  - now apply skipn_all2.
Qed.

Lemma asReader_call {St : Type} (m : nat -> exec St result) (u : unit)
    (p : nat) (st : St) :
  asReader m u p st
  = match m p st with
    | None => None
    | Some (res, st') => Some ((res, tt), st')
    end.
Proof. reflexivity. Qed.

(** ** The finite source *)

(** One call on a source that still has data, with a buffer that is not
    empty: a non-empty prefix is handed out, and [io.EOF] can only come
    with the last byte. *)
Lemma source_step_data (s : source) (p : nat) :
  s_data s <> [] -> 0 < p ->
  exists m err,
    0 < m <= p /\ m <= length (s_data s) /\
    source_step s p =
      ((firstn m (s_data s), err),
       {| s_data := skipn m (s_data s); s_chunk := s_chunk s;
          s_eager := s_eager s |}) /\
    (skipn m (s_data s) <> [] -> err = None) /\
    (skipn m (s_data s) = [] ->
       err = if s_eager s then Some EOF else None).
Proof.
  intros Hd Hp. unfold source_step.
  destruct (s_data s) as [|a d] eqn:E; [congruence|].
  set (n := Nat.min p (S (s_chunk s))).
  assert (Hn : 0 < n <= p) by (unfold n; lia).
  destruct (Nat.le_gt_cases (length (a :: d)) n) as [Hle|Hgt].
  - exists (length (a :: d)), (if s_eager s then Some EOF else None).
    rewrite (skipn_all2 (a :: d) Hle), (firstn_all2 (a :: d) Hle).
    rewrite skipn_all, firstn_all.
    repeat split; try lia; try congruence. simpl. lia.
  - exists n, None.
    destruct (skipn n (a :: d)) as [|b rest] eqn:Es.
    + apply skipn_nil_iff in Es. lia.
    + repeat split; try lia; congruence.
Qed.

Lemma source_step_nil (s : source) (p : nat) :
  s_data s = [] -> source_step s p = (([], Some EOF), s).
Proof.
  intros E. unfold source_step. now rewrite E.
Qed.

(** ** The bounded reader *)

Section Bounded.

Variable St : Type.

Lemma limited_call_zero (R : Type) (Read : readFn St R) (l : limitedReader R)
    (p : nat) (st : St) :
  (lr_n l <= 0)%Z ->
  limitedReader_Read Read l p st = Some (([], Some EOF, l), st).
Proof.
  intros H. unfold limitedReader_Read.
  destruct (Z.leb_spec (lr_n l) 0); [reflexivity | lia].
Qed.

(** One call of the bounded reader over a finite source, the limit not
    yet reached. *)
Lemma limited_call_source (e : error) (k chunk : nat) (eager : bool) (st : St)
    (data : list byte) (n : Z) :
  0 < k -> (0 < n < 2 ^ 63)%Z ->
  exists m err,
    limitedReader_Read source_Read
      (limitReader (mkSource data chunk eager) n (Some e)) k st
    = Some (((firstn m data, err),
             limitReader (mkSource (skipn m data) chunk eager)
               (n - Z.of_nat m) (Some e)), st) /\
    (Z.of_nat m <= n)%Z /\ m <= length data /\
    (data = [] -> err = Some e) /\
    (data <> [] -> 0 < m) /\
    (skipn m data <> [] -> err = None) /\
    (data <> [] -> skipn m data = [] ->
       err = if eager
             then if (n - Z.of_nat m >? 0)%Z then Some e else Some EOF
             else None).
Proof.
  intros Hk Hn.
  unfold limitedReader_Read, limitReader. cbn [lr_n lr_r lr_shortErr].
  destruct (Z.leb_spec n 0) as [|_]; [lia|].
  set (p := if (Z.of_nat k >? n)%Z then Z.to_nat n else k).
  assert (Hp : 0 < p /\ (Z.of_nat p <= n)%Z).
  { unfold p. destruct (Z.gtb_spec (Z.of_nat k) n); lia. }
  unfold source_Read, bind.
  destruct data as [|a0 d0] eqn:Ed.
  - rewrite source_step_nil by reflexivity.
    exists 0, (Some e). cbn.
    rewrite int64_small by lia. replace (n - 0)%Z with n by lia.
    destruct (Z.gtb_spec n 0); [|lia].
    repeat split; try lia; try congruence.
  - rewrite <- Ed in *.
    assert (Hd : data <> []) by (rewrite Ed; discriminate).
    clear Ed a0 d0.
    destruct (source_step_data (mkSource data chunk eager) p)
      as (m & err & Hm & Hml & Es & Hne & Hnil); [exact Hd | lia |].
    rewrite Es. cbn [s_data s_chunk s_eager mkSource] in *.
    assert (Hlen : length (firstn m data) = m)
      by (rewrite length_firstn; lia).
    cbv beta iota delta [ret]. rewrite Hlen. rewrite int64_small by lia.
    assert (Hc : skipn m data = [] \/ skipn m data <> [])
      by (destruct (skipn m data); [left | right]; congruence).
    destruct Hc as [Esk|Esk].
    + specialize (Hnil Esk). subst err.
      destruct eager; cbn [isEOF error_eqb andb].
      * destruct (Z.gtb_spec (n - Z.of_nat m) 0);
          eexists m, _; (split; [reflexivity|]);
          repeat split; try lia; try congruence;
          intros _ _; destruct (Z.gtb_spec (n - Z.of_nat m) 0);
          (reflexivity || lia).
      * exists m, None. repeat split; try lia; try congruence.
    + specialize (Hne Esk). subst err.
      exists m, None. cbn [isEOF andb].
      repeat split; try lia; try congruence.
Qed.

Lemma limited_readAll (e : error) (k chunk : nat) (eager : bool) (st : St) :
  0 < k ->
  forall fuel data n,
    (0 <= n < 2 ^ 63)%Z -> length data + 2 <= fuel ->
    exists l',
      readAll (limitedReader_Read source_Read) fuel k
        (limitReader (mkSource data chunk eager) n (Some e)) st
      = Some ((firstn (Z.to_nat n) data,
               (if (Z.of_nat (length data) <? n)%Z then e else EOF), l'), st).
Proof.
  intros Hk. induction fuel as [|fuel IH]; intros data n Hn Hf; [lia|].
  cbn [readAll]. unfold bind at 1.
  destruct (Z.eq_dec n 0) as [->|Hn0].
  - rewrite limited_call_zero by (simpl; lia). cbn.
    eexists. destruct (Z.ltb_spec (Z.of_nat (length data)) 0); [lia|].
    reflexivity.
  - destruct (limited_call_source e k chunk eager st data n)
      as (m & err & Ecall & Hmn & Hml & Hnil & Hpos & Hmore & Hlast);
      [exact Hk | lia |].
    rewrite Ecall. clear Ecall.
    destruct data as [|a0 d0] eqn:Ed.
    + rewrite (Hnil eq_refl). cbn [ret]. rewrite !firstn_nil.
      change (length (@nil byte)) with 0.
      destruct (Z.ltb_spec (Z.of_nat 0) n); [|lia]. eexists. reflexivity.
    + rewrite <- Ed in *.
      assert (Hd : data <> []) by (rewrite Ed; discriminate).
      clear Ed a0 d0 Hnil. specialize (Hpos Hd). specialize (Hlast Hd).
      destruct (skipn m data) as [|b rest] eqn:Esk.
      * (* the source is exhausted by this call *)
        apply skipn_nil_iff in Esk.
        assert (m = length data) by lia. subst m.
        rewrite firstn_all in *. rewrite (Hlast eq_refl). clear Hlast Hmore.
        destruct eager.
        -- destruct (Z.gtb_spec (n - Z.of_nat (length data)) 0);
             destruct (Z.ltb_spec (Z.of_nat (length data)) n); try lia;
             cbn [ret]; eexists; rewrite firstn_all2 by lia; reflexivity.
        -- destruct (IH [] (n - Z.of_nat (length data))%Z) as (l' & El');
             [lia | simpl; lia |].
           unfold mkSource, limitReader in *.
           unfold bind. rewrite El'. cbn [ret].
           exists l'. rewrite firstn_nil, app_nil_r.
           rewrite firstn_all2 by lia.
           change (length (@nil byte)) with 0.
           destruct (Z.ltb_spec (Z.of_nat 0) (n - Z.of_nat (length data)));
             destruct (Z.ltb_spec (Z.of_nat (length data)) n);
             try reflexivity; lia.
      * rewrite (Hmore ltac:(discriminate)).
        assert (Hrest : length (b :: rest) = length data - m)
          by (rewrite <- Esk; apply length_skipn).
        destruct (IH (b :: rest) (n - Z.of_nat m)%Z) as (l' & El');
          [lia | lia |].
        unfold bind. rewrite El'. cbn [ret].
        exists l'.
        assert (E1 : firstn (Z.to_nat n) data
                     = firstn m data
                         ++ firstn (Z.to_nat (n - Z.of_nat m)) (b :: rest)).
        { replace (Z.to_nat n) with (m + Z.to_nat (n - Z.of_nat m)) by lia.
          rewrite firstn_add_skipn, Esk. reflexivity. }
        assert (E2 : (Z.of_nat (length data) <? n)%Z
                     = (Z.of_nat (length (b :: rest)) <? n - Z.of_nat m)%Z).
        { rewrite Hrest.
          destruct (Z.ltb_spec (Z.of_nat (length data - m))
                      (n - Z.of_nat m));
            destruct (Z.ltb_spec (Z.of_nat (length data)) n);
            try reflexivity; lia. }
        rewrite E1, E2. reflexivity.
Qed.

End Bounded.

(** C2.  A bounded reader with limit [L] and short error [e] over a source
    of [S] bytes, read to exhaustion with any non-empty buffer, delivers
    the first [min L S] bytes of the source; the error that ends the
    stream is [e] when [S < L] and [io.EOF] when [S >= L]; and a call made
    when the remaining limit is zero returns no byte and [io.EOF],
    whatever the inner reader. *)
Theorem limitedReader_bounded (St : Type) (st : St) (e : error)
    (k chunk : nat) (eager : bool) (data : list byte) (L : Z) (fuel : nat) :
  0 < k -> (0 <= L < 2 ^ 63)%Z -> length data + 2 <= fuel ->
  (exists l',
     readAll (limitedReader_Read source_Read) fuel k
       (limitReader (mkSource data chunk eager) L (Some e)) st
     = Some ((firstn (Z.to_nat L) data,
              (if (Z.of_nat (length data) <? L)%Z then e else EOF), l'), st))
  /\ Z.of_nat (length (firstn (Z.to_nat L) data))
     = Z.min L (Z.of_nat (length data))
  /\ (forall (R : Type) (Read : readFn St R) (l : limitedReader R)
             (p : nat) (st' : St),
        lr_n l = 0%Z ->
        limitedReader_Read Read l p st' = Some (([], Some EOF, l), st')).
Proof.
  intros Hk HL Hf. split; [|split].
  - now apply limited_readAll.
  - rewrite length_firstn. lia.
  - intros R Read l p st' Hz. apply limited_call_zero. lia.
Qed.

Lemma limitedReader_bounded_witness :
  (exists l',
     readAll (limitedReader_Read source_Read) 5 2
       (limitReader (mkSource [x61; x62; x63] 0 true) 5 (Some errShortFile))
       tt
     = Some ((firstn (Z.to_nat 5) [x61; x62; x63],
              (if (Z.of_nat (length [x61; x62; x63]) <? 5)%Z
               then errShortFile else EOF), l'), tt))
  /\ Z.of_nat (length (firstn (Z.to_nat 5) [x61; x62; x63]))
     = Z.min 5 (Z.of_nat (length [x61; x62; x63]))
  /\ (forall (R : Type) (Read : readFn unit R) (l : limitedReader R)
             (p : nat) (st' : unit),
        lr_n l = 0%Z ->
        limitedReader_Read Read l p st' = Some (([], Some EOF, l), st')).
Proof.
  apply (limitedReader_bounded unit tt errShortFile 2 0 true
           [x61; x62; x63] 5 5); [lia | lia | simpl; lia].
Defined.

(** ** The block-chain walker *)

Section Walker.
Context {C Dec B : Type} `{FBR : fileBlockReader C Dec B}.
Implicit Types f : packedFileReader C Dec B.

Lemma nextBlockInFile_not_EOF f e f' :
  nextBlockInFile f = (Some e, f') -> e <> EOF.
Proof.
  unfold nextBlockInFile.
  destruct (fbr_next (pf_r f)) as [[h|err] b].
  - destruct (first h); [intros [= <- _]; discriminate|].
    destruct (pf_h f) as [cur|]; [|intros [= <- _]; discriminate].
    destruct (negb _); intros [= <- _] || intros [=]; discriminate.
  - destruct (error_eqb err EOF) eqn:E; intros [= <- _]; [discriminate|].
    intros ->. discriminate.
Qed.

Lemma packedRead_loop_EOF fuel p : forall res f bs f',
  packedRead_loop fuel p res f = Some ((bs, Some EOF), f') ->
  bs = [] /\ atLast f' = true.
Proof.
  induction fuel as [|fuel IH]; intros [bs0 err] f bs f' H;
    cbn [packedRead_loop] in H;
    (destruct (isEOF err) eqn:Eerr;
     [ | apply isEOF_false in Eerr; congruence ]);
    (destruct (0 <? length bs0); [discriminate|]);
    unfold atLast;
    (destruct (pf_h f) as [cur|] eqn:Eh;
     [ destruct (last cur) eqn:El | ]);
    try (injection H as <- <-; rewrite Eh; auto; fail).
  - discriminate.
  - destruct (nextBlockInFile f) as [[e|] f1] eqn:En.
    + injection H as _ He _. apply nextBlockInFile_not_EOF in En. congruence.
    + destruct (fbr_Read (pf_r f1) p) as [res' b].
      apply IH in H. exact H.
Qed.

Lemma packedFileReader_Read_EOF fuel p f bs f' :
  packedFileReader_Read fuel p f = Some ((bs, Some EOF), f') ->
  bs = [] /\ atLast f' = true.
Proof.
  unfold packedFileReader_Read.
  destruct (fbr_Read (pf_r f) p) as [res b]. apply packedRead_loop_EOF.
Qed.

Lemma skipToLast_advances n f f' :
  advances n f f' -> forall fuel, n <= fuel ->
  skipToLast fuel f = Some (None, f').
Proof.
  induction 1 as [f Hl | n f f1 f2 Hl En Hadv IH]; intros fuel Hf.
  - unfold atLast in Hl. destruct fuel; cbn [skipToLast];
      destruct (pf_h f) as [cur|]; try reflexivity; now rewrite Hl.
  - destruct fuel as [|fuel]; [lia|]. cbn [skipToLast].
    unfold atLast in Hl. destruct (pf_h f) as [cur|]; [|discriminate].
    rewrite Hl, En. apply IH. lia.
Qed.

Lemma advances_atLast n f f' : advances n f f' -> atLast f' = true.
Proof. induction 1; auto. Qed.

(** C8.  When the block source reports end-of-stream to an advance within
    the current file, [nextBlockInFile] fails with [errUnexpectedArcEnd],
    not with [io.EOF]; so do a [Read] that has to move on from an
    exhausted block that is not the last, and a [next] that has to skip
    the rest of such a file. *)
Theorem nextBlockInFile_archive_end f b :
  fbr_next (pf_r f) = (inr EOF, b) ->
  let f' := {| pf_r := b; pf_h := pf_h f |} in
  nextBlockInFile f = (Some errUnexpectedArcEnd, f')
  /\ (forall fuel p b0,
        atLast f = false ->
        fbr_Read b0 p = (([], Some EOF), pf_r f) ->
        packedFileReader_Read (S fuel) p {| pf_r := b0; pf_h := pf_h f |}
        = Some (([], Some errUnexpectedArcEnd), f'))
  /\ (forall fuel,
        atLast f = false ->
        packedFileReader_next (S fuel) f
        = Some (inr errUnexpectedArcEnd, f')).
Proof.
  intros En f'.
  assert (E : nextBlockInFile f = (Some errUnexpectedArcEnd, f')).
  { unfold nextBlockInFile. rewrite En. reflexivity. }
  split; [exact E|]. unfold atLast. split.
  - intros fuel p b0 Hl Er. unfold packedFileReader_Read.
    cbn [pf_r pf_h]. rewrite Er.
    cbn [packedRead_loop isEOF error_eqb length Nat.ltb Nat.leb pf_h pf_r].
    destruct (pf_h f) as [cur|] eqn:Eh; [|discriminate]. rewrite Hl.
    replace {| pf_r := pf_r f; pf_h := Some cur |} with f
      by (destruct f; cbn in *; congruence).
    now rewrite E.
  - intros fuel Hl. unfold packedFileReader_next. cbn [skipToLast].
    destruct (pf_h f) as [cur|] eqn:Eh; [|discriminate]. rewrite Hl.
    now rewrite E.
Qed.


(** C6.  [next], once the advances within the current file have reached a
    record with [last] set (none is made when there is no current record
    or it is the last), fetches one record from the block source: an
    error of the source, [io.EOF] included, is returned unchanged; a
    record without [first] gives [errInvalidFileBlock]; a record with
    [first] is returned and becomes the current record. *)
Theorem packedFileReader_next_spec n f f' fuel :
  advances n f f' -> n <= fuel ->
  atLast f' = true
  /\ (forall e b,
        fbr_next (pf_r f') = (inr e, b) ->
        packedFileReader_next fuel f
        = Some (inr e, {| pf_r := b; pf_h := None |}))
  /\ (forall h b,
        fbr_next (pf_r f') = (inl h, b) -> first h = false ->
        packedFileReader_next fuel f
        = Some (inr errInvalidFileBlock, {| pf_r := b; pf_h := Some h |}))
  /\ (forall h b,
        fbr_next (pf_r f') = (inl h, b) -> first h = true ->
        packedFileReader_next fuel f
        = Some (inl h, {| pf_r := b; pf_h := Some h |})).
Proof.
  intros Hadv Hf. split; [eapply advances_atLast; eassumption|].
  unfold packedFileReader_next.
  rewrite (skipToLast_advances _ _ _ Hadv fuel Hf).
  repeat split; intros; rewrite H; try rewrite H0; reflexivity.
Qed.

End Walker.

Section Archive.
Context {C Dec : Type}.
Variables (chunk : nat) (eager solid : bool).
Variable others : list (fileBlockHeader C Dec * list byte).

Local Notation "'W'" := (walker chunk eager solid).

Lemma chainOk_nil (cur : fileBlockHeader C Dec) :
  chainOk cur [] = true -> last cur = true.
Proof. auto. Qed.

Lemma chainOk_cons (cur h : fileBlockHeader C Dec) pl rest :
  chainOk cur ((h, pl) :: rest) = true ->
  last cur = false /\ first h = false
  /\ Name (hdr h) = Name (hdr cur) /\ chainOk h rest = true.
Proof.
  cbn [chainOk]. rewrite !andb_true_iff, !negb_true_iff, String.eqb_eq.
  tauto.
Qed.

(** Moving on from an exhausted block to the next block of the chain. *)
Lemma walker_nextBlockInFile cur h pl rest payload :
  chainOk cur ((h, pl) :: rest) = true ->
  nextBlockInFile (W (Some cur) payload ((h, pl) :: rest ++ others))
  = (None, W (Some h) pl (rest ++ others)).
Proof.
  intros Hok. apply chainOk_cons in Hok. destruct Hok as (_ & Hf & Hn & _).
  unfold nextBlockInFile, walker. cbn. rewrite Hf, Hn, String.eqb_refl.
  reflexivity.
Qed.

(** One [Read] with a non-empty buffer: either everything left in the
    chain is empty and the call reports [io.EOF] from the last block, or
    it hands out a non-empty piece of what is left, without error. *)
Lemma walker_Read_call k : 0 < k ->
  forall chain cur payload fi,
    chainOk cur chain = true -> length chain <= fi ->
    (payload ++ concat (map snd chain) = []
     /\ packedFileReader_Read fi k (W (Some cur) payload (chain ++ others))
        = Some (([], Some EOF), W (Some (chainEnd cur chain)) [] others))
    \/ (exists out cur' payload' chain',
          out <> []
          /\ packedFileReader_Read fi k
               (W (Some cur) payload (chain ++ others))
             = Some ((out, None), W (Some cur') payload' (chain' ++ others))
          /\ out ++ payload' ++ concat (map snd chain')
             = payload ++ concat (map snd chain)
          /\ chainOk cur' chain' = true
          /\ length chain' <= length chain
          /\ chainEnd cur' chain' = chainEnd cur chain).
Proof.
  intros Hk. induction chain as [|[h pl] chain IH]; intros cur payload fi Hok Hfi.
  - (* the current block is the last *)
    destruct payload as [|a0 d0] eqn:Ed.
    + left. split; [reflexivity|].
      unfold packedFileReader_Read, walker. cbn [pf_r pf_h fbr_Read archive_fileBlockReader].
      unfold archive_Read. cbn [a_cur a_blocks a_solid].
      rewrite source_step_nil by reflexivity.
      apply chainOk_nil in Hok.
      destruct fi; cbn [packedRead_loop isEOF error_eqb length Nat.ltb Nat.leb pf_h];
        rewrite Hok; reflexivity.
    + right. rewrite <- Ed in *.
      assert (Hd : payload <> []) by (rewrite Ed; discriminate).
      clear Ed a0 d0.
      destruct (source_step_data (mkSource payload chunk eager) k)
        as (m & err & Hm & Hml & Es & Hne & Hnil); [exact Hd | lia |].
      cbn [s_data s_chunk s_eager mkSource] in *.
      exists (firstn m payload), cur, (skipn m payload), [].
      assert (Hout : firstn m payload <> []).
      { intros E. apply (f_equal (@length byte)) in E.
        rewrite length_firstn in E. simpl in E.
        destruct payload; [congruence | simpl in *; lia]. }
      repeat split; auto.
      * unfold packedFileReader_Read, walker.
        cbn [pf_r pf_h fbr_Read archive_fileBlockReader].
        unfold archive_Read. cbn [a_cur a_blocks a_solid mkSource].
        rewrite Es.
        assert (Hc : err = None \/ err = Some EOF).
        { destruct (skipn m payload); [|left; apply Hne; discriminate].
          rewrite (Hnil eq_refl). destruct eager; auto. }
        assert (Hlt : (0 <? length (firstn m payload)) = true).
        { apply Nat.ltb_lt. destruct (firstn m payload); [congruence|simpl; lia]. }
        destruct Hc as [-> | ->];
          destruct fi; cbn [packedRead_loop isEOF error_eqb];
          try rewrite Hlt; reflexivity.
      * cbn [map concat]. rewrite !app_nil_r. apply firstn_skipn.
  - (* more blocks follow *)
    destruct payload as [|a0 d0] eqn:Ed.
    + destruct fi as [|fi]; [simpl in Hfi; lia|].
      pose proof (walker_nextBlockInFile cur h pl chain [] Hok) as En.
      pose proof (chainOk_cons _ _ _ _ Hok) as (Hl & _ & _ & Hok').
      assert (Estep :
        packedFileReader_Read (S fi) k
          (W (Some cur) [] (((h, pl) :: chain) ++ others))
        = packedFileReader_Read fi k (W (Some h) pl (chain ++ others))).
      { unfold packedFileReader_Read at 1.
        cbn [walker pf_r pf_h fbr_Read archive_fileBlockReader].
        unfold archive_Read. cbn [a_cur a_blocks a_solid].
        rewrite source_step_nil by reflexivity.
        cbn [packedRead_loop isEOF error_eqb length Nat.ltb Nat.leb pf_h].
        rewrite Hl.
        change (nextBlockInFile _)
          with (nextBlockInFile
                  (W (Some cur) [] ((h, pl) :: chain ++ others))).
        rewrite En. reflexivity. }
      rewrite Estep.
      destruct (IH h pl fi Hok' ltac:(simpl in Hfi; lia))
        as [(Hnil & Er) | (out & cur' & payload' & chain' & H1 & H2 & H3 & H4 & H5 & H6)].
      * left. split; [exact Hnil | exact Er].
      * right. exists out, cur', payload', chain'.
        repeat split; auto. simpl. lia.
    + right. rewrite <- Ed in *.
      assert (Hd : payload <> []) by (rewrite Ed; discriminate).
      clear Ed a0 d0.
      destruct (source_step_data (mkSource payload chunk eager) k)
        as (m & err & Hm & Hml & Es & Hne & Hnil); [exact Hd | lia |].
      cbn [s_data s_chunk s_eager mkSource] in *.
      exists (firstn m payload), cur, (skipn m payload), ((h, pl) :: chain).
      assert (Hout : firstn m payload <> []).
      { intros E. apply (f_equal (@length byte)) in E.
        rewrite length_firstn in E. simpl in E.
        destruct payload; [congruence | simpl in *; lia]. }
      repeat split; auto.
      * unfold packedFileReader_Read, walker.
        cbn [pf_r pf_h fbr_Read archive_fileBlockReader].
        unfold archive_Read. cbn [a_cur a_blocks a_solid mkSource].
        rewrite Es.
        assert (Hc : err = None \/ err = Some EOF).
        { destruct (skipn m payload); [|left; apply Hne; discriminate].
          rewrite (Hnil eq_refl). destruct eager; auto. }
        assert (Hlt : (0 <? length (firstn m payload)) = true).
        { apply Nat.ltb_lt. destruct (firstn m payload); [congruence|simpl; lia]. }
        destruct Hc as [-> | ->];
          destruct fi; cbn [packedRead_loop isEOF error_eqb];
          try rewrite Hlt; reflexivity.
      * rewrite app_assoc, firstn_skipn. reflexivity.
Qed.

(** Reading the walker to exhaustion. *)
Lemma walker_readAll k fi : 0 < k ->
  forall fo chain cur payload,
    chainOk cur chain = true -> length chain <= fi ->
    length (payload ++ concat (map snd chain)) < fo ->
    readAll (asReader (packedFileReader_Read fi)) fo k tt
      (W (Some cur) payload (chain ++ others))
    = Some ((payload ++ concat (map snd chain), EOF, tt),
            W (Some (chainEnd cur chain)) [] others).
Proof.
  intros Hk. induction fo as [|fo IH]; intros chain cur payload Hok Hfi Hfo;
    [lia|].
  cbn [readAll]. unfold bind at 1. rewrite asReader_call.
  destruct (walker_Read_call k Hk chain cur payload fi Hok Hfi)
    as [(Hnil & Er)
       | (out & cur' & payload' & chain' & Hout & Er & Hcat & Hok' & Hlen & Hend)];
    rewrite Er; cbn [ret].
  - now rewrite Hnil.
  - unfold bind. rewrite IH; [ | exact Hok' | lia | ].
    + cbn [ret]. rewrite Hend, <- Hcat. reflexivity.
    + rewrite <- Hcat in Hfo. rewrite length_app in Hfo.
      destruct out; [congruence | simpl in Hfo; lia].
Qed.

End Archive.

(** C1.  A walker standing on a block of a file, with [chain] the blocks
    that continue the file: read to exhaustion with any non-empty buffer,
    whatever the sizes of the payloads (empty ones included) and the read
    policy of the block source, it yields what is left of the current
    payload followed by the payloads of [chain] in order, then [io.EOF],
    and stands on the last block with the blocks of the later files
    untouched.  And whatever the block source, a [Read] that reports
    [io.EOF] returns no byte and leaves the walker on the last block of
    the chain (or on no file): an empty block before the last never ends
    the stream. *)
Theorem packedFileReader_stream (C Dec : Type) (chunk : nat)
    (eager solid : bool) (cur : fileBlockHeader C Dec) (payload : list byte)
    (chain others : list (fileBlockHeader C Dec * list byte))
    (k fi fo : nat) :
  chainOk cur chain = true ->
  0 < k -> length chain <= fi ->
  length (payload ++ concat (map snd chain)) < fo ->
  readAll (asReader (packedFileReader_Read fi)) fo k tt
    (walker chunk eager solid (Some cur) payload (chain ++ others))
  = Some ((payload ++ concat (map snd chain), EOF, tt),
          walker chunk eager solid (Some (chainEnd cur chain)) [] others)
  /\ (forall (B : Type) (FBR : fileBlockReader C Dec B) (fuel p : nat)
             (f f' : packedFileReader C Dec B) (bs : list byte),
        packedFileReader_Read fuel p f = Some ((bs, Some EOF), f') ->
        bs = [] /\ atLast f' = true).
Proof.
  intros Hok Hk Hfi Hfo. split.
  - now apply walker_readAll.
  - intros B FBR fuel p f f' bs. apply packedFileReader_Read_EOF.
Qed.

(** ** The top-level reader *)

Section ReaderFacts.
Context {C Dec B D A : Type}.
Context `{CK : fileChecksum C} `{FBR : fileBlockReader C Dec B}
        `{DL : decodeLayer D Dec} `{AES : decryptLayer A}.
Implicit Types s : Reader C Dec B D A.
Implicit Types x : reader A.

(** Reading through a chain leaves the trace, [r.r] and [r.solidr]
    alone. *)
Lemma reader_Read_frame fuel : forall x p s out s',
  reader_Read fuel x p s = Some (out, s') ->
  trace s' = trace s /\ solidr s' = solidr s /\ r s' = r s.
Proof.
  induction x as [d | c | | inner IH n shortErr | inner IH];
    intros p s out s' H; cbn [reader_Read] in H.
  - unfold bind, bytesReader_Read in H.
    destruct d; cbn in H; injection H as _ <-; auto.
  - unfold bind, on_pr in H.
    destruct (raw_Read fuel c p (pr s)) as [[[res c'] f']|]; [|discriminate].
    cbn in H. injection H as _ <-. auto.
  - unfold bind, on_dr in H.
    destruct (dr_Read _ _ _ _) as [[[res d'] [c' f']]|]; [|discriminate].
    cbn in H. injection H as _ <-. auto.
  - unfold bind, limitedReader_Read, limitReader in H.
    cbn [lr_n lr_r lr_shortErr] in H.
    destruct (n <=? 0)%Z; [cbn in H; injection H as _ <-; auto|].
    unfold bind in H.
    match type of H with
    | context [reader_Read fuel inner ?q s] =>
        destruct (reader_Read fuel inner q s) as [[[[bs err] x'] s1]|] eqn:E
    end; [|discriminate].
    apply IH in E.
    destruct (isEOF err && _); cbn in H; injection H as _ <-; exact E.

  - unfold bind, teeReader_Read in H. unfold bind in H.
    destruct (reader_Read fuel inner p s) as [[[[bs err] x'] s1]|] eqn:E;
      [|discriminate].
    apply IH in E.
    destruct (0 <? length bs).
    + unfold cksum_Write in H.
      destruct (rd_cksum s1) as [c|].
      * destruct (ck_Write c bs) as [[n werr] c'].
        destruct werr; cbn in H; injection H as _ <-; exact E.
      * cbn in H. injection H as _ <-. exact E.
    + cbn in H. injection H as _ <-. exact E.
Qed.

Lemma on_pr_frame {T : Type} (m : exec (packedFileReader C Dec B) T) s a s' :
  on_pr m s = Some (a, s') ->
  exists f', m (pr s) = Some (a, f') /\ s' = set_pr f' s.
Proof.
  unfold on_pr. destruct (m (pr s)) as [[a0 f']|]; [|discriminate].
  intros [= <- <-]. eauto.
Qed.

(** The trace [io.Copy] leaves when it drains a reader. *)
Lemma ioCopyDiscard_trace fuel : forall fo x s derr x' s',
  ioCopyDiscard (solid_Read fuel) fo x s = Some ((derr, x'), s') ->
  exists pre n e,
    trace s' = trace s ++ solidReads pre n e
    /\ derr = (if error_eqb e EOF then None else Some e).
Proof.
  induction fo as [|fo IH]; intros x s derr x' s' H; [discriminate|].
  cbn [ioCopyDiscard] in H. unfold bind, solid_Read in H.
  destruct (reader_Read fuel x discardBufSize s)
    as [[[[bs err] x1] s1]|] eqn:E; [|discriminate].
  apply reader_Read_frame in E. destruct E as (Et & _ & _).
  destruct err as [e|].
  - exists [], (length bs), e. unfold solidReads. cbn [map app].
    destruct (error_eqb e EOF); cbn in H; injection H as <- _ <-;
      cbn [trace log]; now rewrite Et.
  - apply IH in H. destruct H as (pre & n & e & Ht & Hd).
    exists (length bs :: pre), n, e. split; [|exact Hd].
    rewrite Ht. cbn [trace log]. rewrite Et. unfold solidReads.
    cbn [map]. now rewrite <- app_assoc.
Qed.

Lemma initDecode_trace fuel (h : fileBlockHeader C Dec) src s ierr s' :
  initDecode fuel h src s = Some (ierr, s') ->
  trace s'
  = trace s
      ++ match decoder h with
         | Some dec => [EvDecodeInit src dec (winSize h) (negb (solid h))]
         | None => []
         end.
Proof.
  unfold initDecode. destruct (decoder h) as [dec|].
  - unfold on_dr.
    destruct (dr_init _ _ _ _ _ _) as [[[e d'] [c' f']]|]; [|discriminate].
    destruct e as [e|].
    + intros [= _ <-]. reflexivity.
    + destruct (isSolid _); intros [= _ <-]; reflexivity.
  - intros [= _ <-]. now rewrite app_nil_r.
Qed.

Lemma nextFile_trace fuel s1 res s' :
  nextFile fuel s1 = Some (res, s') ->
  exists tail,
    trace s' = trace s1 ++ EvPackedNext :: tail
    /\ (tail = []
        \/ exists src dec win reset, tail = [EvDecodeInit src dec win reset]).
Proof.
  unfold nextFile.
  destruct (on_pr _ _) as [[[h|e] s2]|] eqn:E; [| |discriminate].
  - apply on_pr_frame in E. destruct E as (f' & _ & ->).
    match goal with
    | |- context [initDecode fuel h ?src ?s4] =>
        destruct (initDecode fuel h src s4) as [[ierr s5]|] eqn:Ei;
          [apply initDecode_trace in Ei; cbn [trace set_r set_solidr set_pr log] in Ei
          |discriminate]
    end.
    assert (Ht : exists tail,
               trace s5 = trace s1 ++ EvPackedNext :: tail
               /\ (tail = []
                   \/ exists src dec win reset,
                        tail = [EvDecodeInit src dec win reset])).
    { rewrite Ei, <- app_assoc. cbn [app].
      destruct (decoder h); eexists; split; try reflexivity; eauto 6. }
    destruct ierr as [e|]; [intros [= _ <-]; exact Ht|].
    intros [= _ <-].
    destruct ((UnPackedSize (hdr h) >=? 0)%Z && negb (UnKnownSize (hdr h)));
      cbn [set_cksum rd_cksum]; destruct (cksum h); exact Ht.
  - apply on_pr_frame in E. destruct E as (f' & _ & ->).
    intros [= _ <-]. exists []. cbn [trace set_pr log]. auto.
Qed.

(** The drain of [io.Copy] on the decode layer is the decode layer read
    to its first error, and [io.EOF] is its success. *)
Lemma ioCopyDiscard_exhaust fuel : forall fo s,
  ioCopyDiscard (solid_Read fuel) fo RDecode s
  = match spec_exhaust fuel fo discardBufSize (dr_st (dr s))
            (dr_src (dr s), pr s) with
    | None => None
    | Some ((pre, n, e, d1), (c1, f1)) =>
        Some ((if error_eqb e EOF then None else Some e, RDecode),
              drained s pre n e d1 c1 f1)
    end.
Proof.
  induction fo as [|fo IH]; intros s; [reflexivity|].
  cbn [ioCopyDiscard spec_exhaust]. unfold bind, solid_Read.
  cbn [reader_Read]. unfold bind, on_dr.
  destruct (dr_Read (src_Read fuel) (dr_st (dr s)) discardBufSize
              (dr_src (dr s), pr s))
    as [[[[bs err] d'] [c' f']]|] eqn:E; [|reflexivity].
  cbn [ret].
  destruct err as [e|].
  - cbn [ret]. unfold drained, solidReads. cbn [map app].
    destruct (error_eqb e EOF); reflexivity.
  - rewrite IH. cbn [dr pr dr_st dr_src log set_dr set_pr].
    destruct (spec_exhaust fuel fo discardBufSize d' (c', f'))
      as [[[[[pre n] e] d1] [c1 f1]]|]; [|reflexivity].
    cbn [ret]. unfold drained, solidReads.
    cbn [r rd_cksum solidr trace log set_dr set_pr map].
    rewrite <- !app_assoc. reflexivity.
Qed.

(** C3.  When the decode stream of the previous file is pending as the
    solid stream, [Next] first reads the decode layer to exhaustion: the
    decode layer is read, its bytes discarded, until a call returns an
    error, and only when that error is [io.EOF] does [Next] go on.  The
    walker is then advanced from where those reads left it, and the
    decode layer of the next file, if it has one, is initialised on the
    decode layer those reads left, after the walker has advanced.  On
    any other error [Next] returns it, and neither happens.  And [Next]
    does not return before the decode layer has returned an error: when
    it has, what [Next] returns is what the rest of [Next] returns from
    the [Reader] those reads left. *)
Theorem Reader_Next_drains_first fuel s0 :
  solidr s0 = Some RDecode ->
  (forall res s',
      Reader_Next fuel s0 = Some (res, s') ->
      exists pre n e d1 c1 f1,
        spec_exhaust fuel fuel discardBufSize (dr_st (dr s0))
          (dr_src (dr s0), pr s0)
        = Some ((pre, n, e, d1), (c1, f1))
        /\ (e <> EOF ->
            res = inr e
            /\ trace s' = trace s0 ++ solidReads pre n e
            /\ dr s' = {| dr_st := d1; dr_src := c1 |} /\ pr s' = f1
            /\ r s' = r s0 /\ rd_cksum s' = rd_cksum s0)
        /\ (e = EOF ->
            exists resw f2 tail,
              packedFileReader_next fuel f1 = Some (resw, f2)
              /\ trace s'
                 = trace s0 ++ solidReads pre n EOF ++ EvPackedNext :: tail
              /\ match resw with
                 | inr e' =>
                     res = inr e' /\ tail = []
                     /\ dr s' = {| dr_st := d1; dr_src := c1 |}
                     /\ pr s' = f2
                 | inl h =>
                     match decoder h with
                     | None =>
                         res = inl (hdr h) /\ tail = []
                         /\ dr s' = {| dr_st := d1; dr_src := c1 |}
                         /\ pr s' = f2
                     | Some dec =>
                         let src :=
                           if (0 <? length (key h)) && (0 <? length (iv h))
                           then RDecrypt (newAes (key h) (iv h))
                           else RPacked in
                         tail = [EvDecodeInit src dec (winSize h)
                                   (negb (solid h))]
                         /\ exists ierr d2 c2 f3,
                              dr_init (src_Read fuel) d1 dec (winSize h)
                                (negb (solid h)) (src, f2)
                              = Some ((ierr, d2), (c2, f3))
                              /\ dr s' = {| dr_st := d2; dr_src := c2 |}
                              /\ pr s' = f3
                              /\ res = match ierr with
                                       | Some e' => inr e'
                                       | None => inl (hdr h)
                                       end
                     end
                 end))
  /\ (forall pre n e d1 c1 f1,
        spec_exhaust fuel fuel discardBufSize (dr_st (dr s0))
          (dr_src (dr s0), pr s0)
        = Some ((pre, n, e, d1), (c1, f1)) ->
        Reader_Next fuel s0
        = if error_eqb e EOF
          then nextFile fuel (drained s0 pre n e d1 c1 f1)
          else Some (inr e, drained s0 pre n e d1 c1 f1))
  /\ (spec_exhaust fuel fuel discardBufSize (dr_st (dr s0))
        (dr_src (dr s0), pr s0) = None ->
      Reader_Next fuel s0 = None).
Proof.
  intros Hs.
  assert (Hnext : Reader_Next fuel s0
            = match spec_exhaust fuel fuel discardBufSize (dr_st (dr s0))
                      (dr_src (dr s0), pr s0) with
              | None => None
              | Some ((pre, n, e, d1), (c1, f1)) =>
                  if error_eqb e EOF
                  then nextFile fuel (drained s0 pre n e d1 c1 f1)
                  else Some (inr e, drained s0 pre n e d1 c1 f1)
              end).
  { unfold Reader_Next, drainSolid. rewrite Hs, ioCopyDiscard_exhaust.
    destruct (spec_exhaust fuel fuel discardBufSize (dr_st (dr s0))
                (dr_src (dr s0), pr s0))
      as [[[[[pre n] e] d1] [c1 f1]]|]; [|reflexivity].
    unfold drained. cbn [set_solidr r pr dr rd_cksum solidr trace].
    rewrite Hs. destruct (error_eqb e EOF); reflexivity. }
  split; [|split].
  2:{ intros pre n e d1 c1 f1 Hx. rewrite Hnext, Hx. reflexivity. }
  2:{ intros Hx. rewrite Hnext, Hx. reflexivity. }
  intros res s' H. rewrite Hnext in H.
  destruct (spec_exhaust fuel fuel discardBufSize (dr_st (dr s0))
              (dr_src (dr s0), pr s0))
    as [[[[[pre n] e] d1] [c1 f1]]|] eqn:Hx; [|discriminate].
  exists pre, n, e, d1, c1, f1. split; [reflexivity|].
  unfold drained in H.
  destruct (error_eqb e EOF) eqn:Ee.
  - apply error_eqb_eq in Ee. subst e.
    split; [intros Hne; now elim Hne|]. intros _.
    unfold nextFile, on_pr in H. cbn [pr log set_solidr] in H.
    destruct (packedFileReader_next fuel f1) as [[[h|e'] f2]|] eqn:En;
      [| |discriminate].
    + unfold initDecode, on_dr in H.
      cbn [dr pr r dr_st set_r set_solidr set_pr log trace] in H.
      destruct (decoder h) as [dec|] eqn:Ed.
      * destruct (dr_init _ _ _ _ _ _) as [[[ierr d2] [c2 f3]]|] eqn:Ei;
          [|discriminate].
        exists (inl h), f2,
          [EvDecodeInit
             (if (0 <? length (key h)) && (0 <? length (iv h))
              then RDecrypt (newAes (key h) (iv h)) else RPacked)
             dec (winSize h) (negb (solid h))].
        split; [reflexivity|]. rewrite Ed. cbv zeta.
        destruct ierr as [e'|].
        -- injection H as <- <-.
           cbn [trace dr pr log set_r set_dr set_pr set_solidr].
           split; [rewrite <- !app_assoc; reflexivity|].
           split; [reflexivity|].
           exists (Some e'), d2, c2, f3. repeat split. exact Ei.
        -- cbn [set_r set_dr set_pr set_solidr pr pf_r r] in H.
           destruct (isSolid (pf_r f3));
             destruct ((UnPackedSize (hdr h) >=? 0)%Z
                       && negb (UnKnownSize (hdr h)));
             cbn [set_cksum set_r set_solidr rd_cksum r] in H;
             destruct (cksum h); injection H as <- <-;
             cbn [trace dr pr log set_r set_dr set_pr set_solidr set_cksum];
             (split; [rewrite <- !app_assoc; reflexivity|]);
             (split; [reflexivity|]);
             exists None, d2, c2, f3; repeat split; exact Ei.
      * exists (inl h), f2, []. split; [reflexivity|]. rewrite Ed.
        destruct ((UnPackedSize (hdr h) >=? 0)%Z
                  && negb (UnKnownSize (hdr h)));
          cbn [set_cksum set_r set_solidr rd_cksum r] in H;
          destruct (cksum h); injection H as <- <-;
          cbn [trace dr pr log set_r set_dr set_pr set_solidr set_cksum];
          (split; [rewrite <- !app_assoc; reflexivity|]);
          repeat split; reflexivity.
    + injection H as <- <-. exists (inr e'), f2, [].
      split; [reflexivity|].
      cbn [trace dr pr log set_r set_dr set_pr set_solidr].
      split; [rewrite <- !app_assoc; reflexivity|].
      repeat split; reflexivity.
  - injection H as <- <-. split.
    + intros _. cbn [trace dr pr r rd_cksum]. repeat split; reflexivity.
    + intros ->. discriminate.
Qed.


(** The reads of a consumer that stops at the first error: all but the
    last are without error. *)
Lemma readCalls_shape {St R : Type} (Read : readFn St R) k :
  forall fo y st calls y' st',
    readCalls Read fo k y st = Some ((calls, y'), st') ->
    exists pre bs e,
      calls = pre ++ [(bs, Some e)] /\ Forall (fun c => snd c = None) pre.
Proof.
  induction fo as [|fo IH]; intros y st calls y' st' H; [discriminate|].
  cbn [readCalls] in H. unfold bind in H.
  destruct (Read y k st) as [[[[bs err] y1] st1]|]; [|discriminate].
  destruct err as [e|].
  - injection H as <- _ _. exists [], bs, e. auto.
  - destruct (readCalls Read fo k y1 st1) as [[[rest y2] st2]|] eqn:E;
      [|discriminate].
    injection H as <- _ _. apply IH in E.
    destruct E as (pre & bs' & e & -> & Hpre).
    exists ((bs, None) :: pre), bs', e. split; [reflexivity|].
    constructor; auto.
Qed.

Lemma countBad_clean (pre : list result) :
  Forall (fun c => snd c = None) pre -> countBad pre = 0.
Proof.
  unfold countBad. induction 1 as [|[bs err] pre Hc _ IH]; [reflexivity|].
  cbn in Hc. subst err. exact IH.
Qed.

Lemma countBad_app (a b : list result) :
  countBad (a ++ b) = countBad a + countBad b.
Proof. unfold countBad. now rewrite filter_app, length_app. Qed.

(** One call of [Read], from what the chain answered. *)
Lemma Reader_Read_call fuel p s bs err s' :
  chain_Read fuel p s = Some ((bs, err), s') ->
  Reader_Read fuel p s
  = Some ((bs, if isEOF err
                  && match rd_cksum s' with
                     | Some c => negb (valid c)
                     | None => false
                     end
               then Some errBadFileChecksum else err), s').
Proof.
  intros H. unfold Reader_Read. rewrite H.
  destruct (isEOF err && _); reflexivity.
Qed.

(** A run of [Read] follows the run of the chain up to the last call. *)
Lemma Reader_Read_run fuel k : forall fo s pre bs e s',
  readCalls (asReader (chain_Read fuel)) fo k tt s
  = Some ((pre ++ [(bs, Some e)], tt), s') ->
  Forall (fun c => snd c = None) pre ->
  readCalls (asReader (Reader_Read fuel)) fo k tt s
  = Some ((pre ++ [(bs, if isEOF (Some e)
                           && match rd_cksum s' with
                              | Some c => negb (valid c)
                              | None => false
                              end
                        then Some errBadFileChecksum else Some e)], tt), s').
Proof.
  induction fo as [|fo IH]; intros s pre bs e s' H Hpre; [discriminate|].
  cbn [readCalls] in *. unfold bind in *. rewrite asReader_call in *.
  destruct (chain_Read fuel k s) as [[[bs0 err0] s1]|] eqn:E; [|discriminate].
  rewrite (Reader_Read_call _ _ _ _ _ _ E).
  destruct err0 as [e0|]; cbn [isEOF andb ret] in *.
  - injection H as Hc <-.
    destruct pre as [|c pre]; [|destruct pre; discriminate].
    cbn [app] in *. injection Hc as <- <-.
    destruct (error_eqb e0 EOF && _); reflexivity.
  - destruct (readCalls (asReader (chain_Read fuel)) fo k tt s1)
      as [[[rest []] s2]|] eqn:Er; [|discriminate].
    injection H as Hc <-.
    destruct pre as [|c pre]; [discriminate|].
    cbn [app] in Hc. injection Hc as <- ->.
    inversion Hpre; subst.
    rewrite (IH _ _ _ _ _ Er); [reflexivity | assumption].
Qed.

(** A chain that stands at the end of its size bound, under the tee: a
    read answers no byte and [io.EOF], writes nothing to the sink and
    leaves the [Reader] as it is. *)
Lemma chain_Read_at_bound fuel p s inner n se :
  r s = RTee (RLimit inner n se) -> (n <= 0)%Z ->
  chain_Read fuel p s = Some (([], Some EOF), s).
Proof.
  intros Hr Hn. unfold chain_Read. rewrite Hr.
  cbn [reader_Read]. unfold bind at 1. unfold teeReader_Read.
  unfold bind at 1. cbn [reader_Read]. unfold bind at 1.
  unfold limitedReader_Read, limitReader. cbn [lr_n lr_r lr_shortErr].
  destruct (Z.leb_spec n 0) as [_|]; [|lia].
  cbn. rewrite <- Hr. destruct s; reflexivity.
Qed.

(** C4, as amended.  One call: when the chain reports [io.EOF] and the
    sink attached, asked after that read, is not valid, [Read] returns
    the bytes of the chain with [errBadFileChecksum]; when it is valid,
    with [io.EOF]; and when the chain does not report [io.EOF], [Read]
    returns what the chain returned.  A run of calls up to the first
    error, ending on [io.EOF] of the chain with a sink attached: the
    calls before the last return the same bytes without error whatever
    the sink says, and the last returns [errBadFileChecksum], the only
    call of the run to do so, when the sink is not valid, and [io.EOF]
    when it is.  The error is not latched: once the chain stands at the
    end of its size bound with a sink that is not valid, every later
    [Read] returns [errBadFileChecksum] again and changes nothing. *)
Theorem Reader_Read_checksum fuel p s bs err s' c :
  chain_Read fuel p s = Some ((bs, err), s') ->
  rd_cksum s' = Some c ->
  (err = Some EOF -> valid c = false ->
   Reader_Read fuel p s = Some ((bs, Some errBadFileChecksum), s'))
  /\ (err = Some EOF -> valid c = true ->
      Reader_Read fuel p s = Some ((bs, Some EOF), s'))
  /\ (err <> Some EOF -> Reader_Read fuel p s = Some ((bs, err), s'))
  /\ (forall fo k s0 pre,
        err = Some EOF ->
        readCalls (asReader (chain_Read fuel)) fo k tt s0
        = Some ((pre ++ [(bs, err)], tt), s') ->
        Forall (fun call => snd call = None) pre
        /\ (valid c = false ->
            readCalls (asReader (Reader_Read fuel)) fo k tt s0
            = Some ((pre ++ [(bs, Some errBadFileChecksum)], tt), s')
            /\ countBad (pre ++ [(bs, Some errBadFileChecksum)]) = 1)
        /\ (valid c = true ->
            readCalls (asReader (Reader_Read fuel)) fo k tt s0
            = Some ((pre ++ [(bs, Some EOF)], tt), s')))
  /\ (forall inner n se ps,
        r s' = RTee (RLimit inner n se) -> (n <= 0)%Z ->
        valid c = false ->
        readEach (Reader_Read fuel) ps s'
        = Some (map (fun _ => ([], Some errBadFileChecksum)) ps, s')
        /\ countBad (map (fun _ => ([], Some errBadFileChecksum)) ps)
           = length ps).
Proof.
  intros H Hc. pose proof (Reader_Read_call _ _ _ _ _ _ H) as E.
  rewrite Hc in E. split; [|split; [|split; [|split]]].
  - intros -> Hv. now rewrite E, Hv.
  - intros -> Hv. now rewrite E, Hv.
  - intros Hne. apply isEOF_false in Hne. now rewrite E, Hne.
  - intros fo k s0 pre -> Hrun.
    destruct (readCalls_shape _ _ _ _ _ _ _ _ Hrun)
      as (pre' & bs' & e' & Hs & Hp).
    apply app_inj_tail in Hs. destruct Hs as [<- _].
    pose proof (Reader_Read_run _ _ _ _ _ _ _ _ Hrun Hp) as Hr.
    rewrite Hc in Hr. cbn [isEOF error_eqb andb] in Hr.
    split; [exact Hp|].
    split; intros Hv; rewrite Hv in Hr; cbn [negb] in Hr.
    + split; [exact Hr|].
      rewrite countBad_app, (countBad_clean _ Hp). reflexivity.
    + exact Hr.
  - intros inner n se ps Hr Hn Hv.
    assert (E1 : forall q, Reader_Read fuel q s'
                           = Some (([], Some errBadFileChecksum), s')).
    { intros q.
      rewrite (Reader_Read_call _ _ _ _ _ _
                 (chain_Read_at_bound fuel q s' inner n se Hr Hn)).
      rewrite Hc, Hv. reflexivity. }
    split.
    + induction ps as [|q ps IH]; [reflexivity|].
      cbn [readEach map]. unfold bind at 1. rewrite E1.
      unfold bind at 1. rewrite IH. reflexivity.
    + induction ps as [|q ps IH]; [reflexivity|].
      cbn [map]. unfold countBad in *. cbn. now rewrite IH.
Qed.

(** C10.  A [Reader] just initialised has no checksum sink; [Read]
    returns no byte and [io.EOF] for every buffer and leaves the [Reader]
    as it was, so that every [Read] of any sequence made before the first
    [Next] does. *)
Theorem Reader_init_Read (d0 : D) (fbr : B) (fuel : nat) :
  rd_cksum (Reader_init d0 fbr : Reader C Dec B D A) = None
  /\ (forall p,
        Reader_Read fuel p (Reader_init d0 fbr)
        = Some (([], Some EOF), Reader_init d0 fbr))
  /\ (forall ps,
        readEach (Reader_Read fuel) ps (Reader_init d0 fbr)
        = Some (map (fun _ => ([], Some EOF)) ps, Reader_init d0 fbr)).
Proof.
  assert (E : forall p,
             Reader_Read fuel p (Reader_init d0 fbr)
             = Some (([], Some EOF), Reader_init d0 fbr))
    by reflexivity.
  split; [reflexivity|]. split; [exact E|].
  induction ps as [|p ps IH]; [reflexivity|].
  cbn [readEach map]. unfold bind at 1. rewrite E.
  unfold bind at 1. rewrite IH. reflexivity.
Qed.

End ReaderFacts.

(** ** The skipped blocks of a chain *)

(** The blocks of a well-formed chain are what the loop of [next] skips. *)
Lemma walker_advances {C Dec : Type} (chunk : nat) (eager solid : bool)
    (others : list (fileBlockHeader C Dec * list byte)) :
  forall chain cur payload,
    chainOk cur chain = true ->
    advances (length chain)
      (walker chunk eager solid (Some cur) payload (chain ++ others))
      (walker chunk eager solid (Some (chainEnd cur chain))
         (chainEndPayload payload chain) others).
Proof.
  induction chain as [|[h pl] chain IH]; intros cur payload Hok.
  - apply adv_stop. exact Hok.
  - pose proof (chainOk_cons _ _ _ _ Hok) as (Hl & _ & _ & Hok').
    eapply adv_step.
    + exact Hl.
    + apply walker_nextBlockInFile. exact Hok.
    + apply IH. exact Hok'.
Qed.

(** ** The claims on the sample archive *)

Lemma packedFileReader_stream_witness :
  readAll (asReader (packedFileReader_Read 2)) 7 3 tt
    (walker 2 true true (Some blockA1) [x61; x62]
       ([(blockA2, []); (blockA3, [x63; x64; x65; x66])]
          ++ [(blockB1, [x67; x68; x69])]))
  = Some (([x61; x62] ++ concat (map snd [(blockA2, []); (blockA3, [x63; x64; x65; x66])]), EOF, tt),
          walker 2 true true
            (Some (chainEnd blockA1 [(blockA2, []); (blockA3, [x63; x64; x65; x66])]))
            [] [(blockB1, [x67; x68; x69])])
  /\ (forall (B : Type) (FBR : fileBlockReader sumCheck nat B) (fuel p : nat)
            (f f' : packedFileReader sumCheck nat B) (bs : list byte),
       packedFileReader_Read fuel p f = Some ((bs, Some EOF), f') ->
       bs = [] /\ atLast f' = true).
Proof.
  apply (packedFileReader_stream sumCheck nat 2 true true blockA1 [x61; x62]
           [(blockA2, []); (blockA3, [x63; x64; x65; x66])]
           [(blockB1, [x67; x68; x69])] 3 2 7);
    [reflexivity | lia | simpl; lia | simpl; lia].
Defined.

Lemma packedFileReader_next_spec_witness :
  let f' := walker 2 true true (Some blockA3) [x63; x64; x65; x66]
              [(blockB1, [x67; x68; x69])] in
  atLast f' = true
  /\ (forall e b,
        fbr_next (pf_r f') = (inr e, b) ->
        packedFileReader_next 2
          (walker 2 true true (Some blockA1) [x62] (tl sampleBlocks))
        = Some (inr e, {| pf_r := b; pf_h := None |}))
  /\ (forall h b,
        fbr_next (pf_r f') = (inl h, b) -> first h = false ->
        packedFileReader_next 2
          (walker 2 true true (Some blockA1) [x62] (tl sampleBlocks))
        = Some (inr errInvalidFileBlock, {| pf_r := b; pf_h := Some h |}))
  /\ (forall h b,
        fbr_next (pf_r f') = (inl h, b) -> first h = true ->
        packedFileReader_next 2
          (walker 2 true true (Some blockA1) [x62] (tl sampleBlocks))
        = Some (inl h, {| pf_r := b; pf_h := Some h |})).
Proof.
  apply (packedFileReader_next_spec 2
           (walker 2 true true (Some blockA1) [x62] (tl sampleBlocks))
           (walker 2 true true (Some blockA3) [x63; x64; x65; x66]
              [(blockB1, [x67; x68; x69])]) 2).
  - apply (walker_advances 2 true true [(blockB1, [x67; x68; x69])]
             [(blockA2, []); (blockA3, [x63; x64; x65; x66])] blockA1 [x62]).
    reflexivity.
  - lia.
Defined.


Lemma nextBlockInFile_archive_end_witness :
  let f := walker 0 false false (Some blockA1) [] [] in
  nextBlockInFile f = (Some errUnexpectedArcEnd, f)
  /\ (forall fuel p b0,
        atLast f = false ->
        fbr_Read b0 p = (([], Some EOF), pf_r f) ->
        packedFileReader_Read (S fuel) p {| pf_r := b0; pf_h := pf_h f |}
        = Some (([], Some errUnexpectedArcEnd), f))
  /\ (forall fuel,
        atLast f = false ->
        packedFileReader_next (S fuel) f
        = Some (inr errUnexpectedArcEnd, f)).
Proof.
  apply (nextBlockInFile_archive_end
           (walker 0 false false (Some blockA1) [] [])
           (pf_r (walker 0 false false (Some blockA1) [] []))).
  reflexivity.
Defined.

Lemma Reader_Next_drains_first_witness :
  exists pre n e d1 c1 f1,
    spec_exhaust 10 10 discardBufSize (dr_st (dr sample2))
      (dr_src (dr sample2), pr sample2)
    = Some ((pre, n, e, d1), (c1, f1))
    /\ (e <> EOF ->
        @inl FileHeader error (hdr blockB1) = inr e
        /\ trace sample3 = trace sample2 ++ solidReads pre n e
        /\ dr sample3 = {| dr_st := d1; dr_src := c1 |} /\ pr sample3 = f1
        /\ r sample3 = r sample2 /\ rd_cksum sample3 = rd_cksum sample2)
    /\ (e = EOF ->
        exists resw f2 tail,
          packedFileReader_next 10 f1 = Some (resw, f2)
          /\ trace sample3
             = trace sample2 ++ solidReads pre n EOF ++ EvPackedNext :: tail
          /\ match resw with
             | inr e' =>
                 @inl FileHeader error (hdr blockB1) = inr e' /\ tail = []
                 /\ dr sample3 = {| dr_st := d1; dr_src := c1 |}
                 /\ pr sample3 = f2
             | inl h =>
                 match decoder h with
                 | None =>
                     @inl FileHeader error (hdr blockB1) = inl (hdr h)
                     /\ tail = []
                     /\ dr sample3 = {| dr_st := d1; dr_src := c1 |}
                     /\ pr sample3 = f2
                 | Some dec =>
                     let src :=
                       if (0 <? length (key h)) && (0 <? length (iv h))
                       then RDecrypt (newAes (key h) (iv h))
                       else RPacked in
                     tail = [EvDecodeInit src dec (winSize h)
                               (negb (solid h))]
                     /\ exists ierr d2 c2 f3,
                          dr_init (src_Read 10) d1 dec (winSize h)
                            (negb (solid h)) (src, f2)
                          = Some ((ierr, d2), (c2, f3))
                          /\ dr sample3 = {| dr_st := d2; dr_src := c2 |}
                          /\ pr sample3 = f3
                          /\ @inl FileHeader error (hdr blockB1)
                             = match ierr with
                               | Some e' => inr e'
                               | None => inl (hdr h)
                               end
                 end
             end).
Proof.
  apply (proj1 (Reader_Next_drains_first 10 sample2 eq_refl)
           (inl (hdr blockB1)) sample3).
  vm_compute. reflexivity.
Defined.



Lemma Reader_Read_checksum_witness :
  (Some EOF = Some EOF -> valid {| sc_acc := 207; sc_want := 1 |} = false ->
   Reader_Read 10 5 sample4 = Some (([], Some errBadFileChecksum), sample5))
  /\ (Some EOF = Some EOF -> valid {| sc_acc := 207; sc_want := 1 |} = true ->
      Reader_Read 10 5 sample4 = Some (([], Some EOF), sample5))
  /\ (Some EOF <> Some EOF ->
      Reader_Read 10 5 sample4 = Some (([], Some EOF), sample5))
  /\ (forall fo k s0 pre,
        Some EOF = Some EOF ->
        readCalls (asReader (chain_Read 10)) fo k tt s0
        = Some ((pre ++ [([], Some EOF)], tt), sample5) ->
        Forall (fun call => snd call = None) pre
        /\ (valid {| sc_acc := 207; sc_want := 1 |} = false ->
            readCalls (asReader (Reader_Read 10)) fo k tt s0
            = Some ((pre ++ [([], Some errBadFileChecksum)], tt), sample5)
            /\ countBad (pre ++ [([], Some errBadFileChecksum)]) = 1)
        /\ (valid {| sc_acc := 207; sc_want := 1 |} = true ->
            readCalls (asReader (Reader_Read 10)) fo k tt s0
            = Some ((pre ++ [([], Some EOF)], tt), sample5)))
  /\ (forall inner n se ps,
        r sample5 = RTee (RLimit inner n se) -> (n <= 0)%Z ->
        valid {| sc_acc := 207; sc_want := 1 |} = false ->
        readEach (Reader_Read 10) ps sample5
        = Some (map (fun _ => ([], Some errBadFileChecksum)) ps, sample5)
        /\ countBad (map (fun _ => ([], Some errBadFileChecksum)) ps)
           = length ps).
Proof.
  apply (Reader_Read_checksum 10 5 sample4 [] (Some EOF) sample5
           {| sc_acc := 207; sc_want := 1 |}); vm_compute; reflexivity.
Defined.

(** C4 as stated fails: the error is returned more than once.  Three
    reads of the second file of the sample archive, whose checksum is
    wrong: the first returns its two bytes, and both the second and the
    third return [errBadFileChecksum]. *)
Lemma Reader_Read_checksum_counterexample :
  readEach (Reader_Read 10) [5; 5; 5] sample3
  = Some ([ ([x67; x68], None);
            ([], Some errBadFileChecksum);
            ([], Some errBadFileChecksum) ],
          stateAfter (readEach (Reader_Read 10) [5; 5; 5]) sample3)
  /\ rd_cksum sample3 <> None
  /\ ~ (forall fuel (s : sampleReader) ps calls s',
          rd_cksum s <> None ->
          readEach (Reader_Read fuel) ps s = Some (calls, s') ->
          countBad calls <= 1).
Proof.
  assert (E : readEach (Reader_Read 10) [5; 5; 5] sample3
              = Some ([ ([x67; x68], None);
                        ([], Some errBadFileChecksum);
                        ([], Some errBadFileChecksum) ],
                      stateAfter (readEach (Reader_Read 10) [5; 5; 5])
                        sample3))
    by (vm_compute; reflexivity).
  assert (Hc : rd_cksum sample3 <> None) by (vm_compute; discriminate).
  split; [exact E|]. split; [exact Hc|].
  intros H. specialize (H _ _ _ _ _ Hc E). vm_compute in H. lia.
Qed.

(** * Further properties *)

(** ** The bounded reader over any reader *)

Section BoundedAny.
Context {St R : Type} (Read : readFn St R).

(** One call of the bounded reader over any reader that keeps the count
    contract. *)
Lemma limitedReader_Read_call (l : limitedReader R) p st bs err l' st' :
  withinBuffer Read -> (lr_n l < 2 ^ 63)%Z ->
  limitedReader_Read Read l p st = Some ((bs, err), l', st') ->
  length bs <= p
  /\ ((lr_n l <= 0)%Z -> bs = [] /\ err = Some EOF /\ l' = l /\ st' = st)
  /\ ((0 < lr_n l)%Z ->
      (0 <= lr_n l')%Z /\ lr_n l' = (lr_n l - Z.of_nat (length bs))%Z
      /\ lr_shortErr l' = lr_shortErr l
      /\ (err = Some EOF -> lr_n l' = 0%Z \/ lr_shortErr l = Some EOF)).
Proof.
  intros Hw Hn H. unfold limitedReader_Read in H.
  destruct (Z.leb_spec (lr_n l) 0) as [Hle|Hgt].
  - injection H as <- <- <- <-. simpl. repeat split; try lia.
  - unfold bind in H.
    set (q := if (Z.of_nat p >? lr_n l)%Z then Z.to_nat (lr_n l) else p) in H.
    assert (Hq : q <= p /\ (Z.of_nat q <= lr_n l)%Z).
    { unfold q. destruct (Z.gtb_spec (Z.of_nat p) (lr_n l)); lia. }
    clearbody q.
    destruct (Read (lr_r l) q st) as [[[[bs0 err0] r1] st1]|] eqn:E;
      [|discriminate].
    pose proof (Hw _ _ _ _ _ _ _ E) as Hlen.
    rewrite int64_small in H by lia.
    destruct (isEOF err0) eqn:Ee; cbn [andb] in H.
    + destruct (Z.gtb_spec (lr_n l - Z.of_nat (length bs0)) 0) as [Hpos|Hz];
        injection H as <- <- <- <-; cbn [lr_n lr_shortErr];
        (split; [lia|]); (split; [intros; exfalso; lia|]); intros _;
        repeat split; try lia; intros E'; ((left; lia) || (right; exact E')).
    + injection H as <- <- <- <-. cbn [lr_n lr_shortErr].
      split; [lia|]. split; [intros; exfalso; lia|]. intros _.
      repeat split; try lia. intros ->. discriminate.
Qed.

(** X1.  However long the reading goes on, a bounded reader over a
    reader that keeps within its buffer delivers no more than its bound,
    counts the bound down by what it delivered, and ends with [io.EOF]
    only at the bound or when that is its short error. *)
Theorem limitedReader_never_exceeds (k : nat) :
  withinBuffer Read ->
  forall fuel (l : limitedReader R) st bytes e l' st',
    (lr_n l < 2 ^ 63)%Z ->
    readAll (limitedReader_Read Read) fuel k l st = Some ((bytes, e, l'), st') ->
    (Z.of_nat (length bytes) <= Z.max 0 (lr_n l))%Z
    /\ (0 <= lr_n l -> lr_n l' = lr_n l - Z.of_nat (length bytes))%Z
    /\ (e = EOF -> (lr_n l' <= 0)%Z \/ lr_shortErr l = Some EOF).
Proof.
  intros Hw. induction fuel as [|fuel IH]; intros l st bytes e l' st' Hn H;
    [discriminate|].
  cbn [readAll] in H. unfold bind in H.
  destruct (limitedReader_Read Read l k st) as [[[[bs err] l1] st1]|] eqn:E;
    [|discriminate].
  destruct (limitedReader_Read_call _ _ _ _ _ _ _ Hw Hn E) as (_ & Hz & Hp).
  destruct err as [e0|].
  - injection H as <- <- <- <-.
    destruct (Z.leb_spec (lr_n l) 0) as [Hle|Hgt].
    + destruct (Hz Hle) as (-> & _ & -> & _). simpl. repeat split; try lia.
    + destruct (Hp Hgt) as (H0 & H1 & _ & H2).
      repeat split; try lia. intros ->. destruct (H2 eq_refl); [left; lia|now right].
  - destruct (Z.leb_spec (lr_n l) 0) as [Hle|Hgt].
    + destruct (Hz Hle) as (_ & Hc & _). discriminate.
    + destruct (Hp Hgt) as (H0 & H1 & Hs & _).
      destruct (readAll (limitedReader_Read Read) fuel k l1 st1)
        as [[[[rest e1] l2] st2]|] eqn:Er; [|discriminate].
      injection H as <- <- <- <-.
      apply IH in Er; [|lia]. destruct Er as (Hr1 & Hr2 & Hr3).
      rewrite length_app. rewrite Hs in Hr3.
      split; [lia|]. split; [lia|]. exact Hr3.
Qed.

End BoundedAny.

(** ** Finite streams *)

Section Streams.
Context {St R : Type} (Read : readFn St R).

(** A consumer that reads a finite stream until the first error gets all
    of it, and the error it ends with. *)
Lemma streamStep_readAll I e F :
  streamStep Read I e F ->
  forall fuel x st data k,
    I x st data -> 0 < k -> length data < fuel ->
    exists x' st',
      readAll Read fuel k x st = Some ((data, e, x'), st') /\ F x' st'.
Proof.
  intros Hs. induction fuel as [|fuel IH]; intros x st data k HI Hk Hf; [lia|].
  destruct (Hs x st data k HI Hk)
    as (bs & err & x1 & st1 & E & _ & [(-> & Hne & rest & -> & HI') | (-> & -> & HF)]).
  - destruct (IH x1 st1 rest k HI' Hk) as (x' & st' & Er & HF).
    { rewrite length_app in Hf. destruct bs; [congruence | simpl in Hf; lia]. }
    exists x', st'. split; [|exact HF].
    cbn [readAll]. unfold bind. rewrite E, Er. reflexivity.
  - exists x1, st1. split; [|exact HF].
    cbn [readAll]. unfold bind. rewrite E. reflexivity.
Qed.

(** The bounded reader over a finite stream that ends with [io.EOF] is a
    finite stream: the first [lr_n] bytes, ended by the short error when
    the inner stream is shorter than the limit and by [io.EOF]
    otherwise. *)
Lemma streamStep_limited I F e short :
  streamStep Read I EOF F ->
  streamStep (limitedReader_Read Read) (boundedLeft I e short)
    (if short then e else EOF) (fun _ _ => True).
Proof.
  intros Hs l st data p (inner & HI & -> & Hn & Hsh & He) Hp.
  unfold limitedReader_Read.
  destruct (Z.leb_spec (lr_n l) 0) as [Hz|Hpos].
  - (* the limit is used up *)
    exists [], (Some EOF), l, st. split; [reflexivity|].
    split; [simpl; lia|]. right.
    assert (lr_n l = 0%Z) by lia.
    replace short with false
      by (rewrite <- Hsh; symmetry; apply Z.ltb_ge; lia).
    repeat split. replace (Z.to_nat (lr_n l)) with 0 by lia. reflexivity.
  - set (q := if (Z.of_nat p >? lr_n l)%Z then Z.to_nat (lr_n l) else p).
    assert (Hq : 0 < q <= p /\ (Z.of_nat q <= lr_n l)%Z).
    { unfold q. destruct (Z.gtb_spec (Z.of_nat p) (lr_n l)); lia. }
    clearbody q.
    destruct (Hs (lr_r l) st inner q HI ltac:(lia))
      as (bs & err & x1 & st1 & E & Hlen
          & [(-> & Hne & rest & -> & HI') | (-> & -> & HF)]).
    + (* a piece of the inner stream *)
      unfold bind. rewrite E. cbn [isEOF andb ret].
      rewrite int64_small by lia.
      eexists bs, None, _, st1. split; [reflexivity|]. split; [lia|].
      left. split; [reflexivity|]. split; [exact Hne|].
      exists (firstn (Z.to_nat (lr_n l - Z.of_nat (length bs))) rest).
      split.
      * replace (Z.to_nat (lr_n l))
          with (length bs + Z.to_nat (lr_n l - Z.of_nat (length bs))) by lia.
        rewrite firstn_add_skipn, firstn_app, skipn_app.
        rewrite firstn_all, skipn_all, Nat.sub_diag. cbn [firstn skipn].
        rewrite app_nil_r. reflexivity.
      * exists rest. cbn [lr_r lr_n lr_shortErr].
        repeat split; try lia; try assumption.
        rewrite <- Hsh, length_app.
        destruct (Z.ltb_spec (Z.of_nat (length rest))
                    (lr_n l - Z.of_nat (length bs)));
          destruct (Z.ltb_spec (Z.of_nat (length bs + length rest)) (lr_n l));
          try reflexivity; lia.
    + (* the inner stream ends *)
      unfold bind. rewrite E. cbn [isEOF error_eqb andb ret].
      rewrite int64_small by lia.
      rewrite firstn_all2 by lia.
      destruct (Z.gtb_spec (lr_n l - Z.of_nat (length bs)) 0) as [Hgt|Hle].
      * eexists bs, (lr_shortErr l), _, st1. split; [reflexivity|].
        split; [lia|]. right.
        replace short with true
          by (rewrite <- Hsh; symmetry; apply Z.ltb_lt; lia).
        repeat split; assumption.
      * eexists bs, (Some EOF), _, st1. split; [reflexivity|].
        split; [lia|]. right.
        replace short with false
          by (rewrite <- Hsh; symmetry; apply Z.ltb_ge; lia).
        repeat split.
Qed.

End Streams.

(** ** Counts *)

Section WalkerCounts.
Context {C Dec B : Type} `{FBR : fileBlockReader C Dec B}.

Lemma packedRead_loop_within fuel p : forall res (f : packedFileReader C Dec B) bs err f',
  (forall b q bs' err' b', fbr_Read b q = ((bs', err'), b') -> length bs' <= q) ->
  length (fst res) <= p ->
  packedRead_loop fuel p res f = Some ((bs, err), f') ->
  length bs <= p.
Proof.
  induction fuel as [|fuel IH]; intros [bs0 err0] f bs err f' Hc Hl H;
    cbn [packedRead_loop fst] in *;
    (destruct (isEOF err0);
     [ destruct (0 <? length bs0); [injection H as <- _ _; exact Hl|];
       destruct (pf_h f) as [cur|];
       [ destruct (last cur) | ]
     | injection H as <- _ _; exact Hl ]);
    try (injection H as <- _ _; simpl; lia).
  - discriminate.
  - destruct (nextBlockInFile f) as [[e|] f1].
    + injection H as <- _ _. simpl. lia.
    + destruct (fbr_Read (pf_r f1) p) as [[bs1 err1] b1] eqn:E.
      eapply IH; [exact Hc | | exact H]. cbn [fst]. eapply Hc. exact E.
Qed.

(** The walker keeps the count contract when its block source does. *)
Lemma packedFileReader_Read_within fuel p (f : packedFileReader C Dec B) bs err f' :
  (forall b q bs' err' b', fbr_Read b q = ((bs', err'), b') -> length bs' <= q) ->
  packedFileReader_Read fuel p f = Some ((bs, err), f') ->
  length bs <= p.
Proof.
  intros Hc H. unfold packedFileReader_Read in H.
  destruct (fbr_Read (pf_r f) p) as [[bs0 err0] b0] eqn:E.
  eapply packedRead_loop_within; [exact Hc | | exact H].
  cbn [fst]. eapply Hc. exact E.
Qed.

End WalkerCounts.

Lemma source_step_within (s : source) (p : nat) bs err s' :
  source_step s p = ((bs, err), s') -> length bs <= p.
Proof.
  unfold source_step. destruct (s_data s) as [|a d].
  - intros [= <- _ _]. simpl. lia.
  - destruct (skipn _ _); intros [= <- _ _]; rewrite length_firstn; lia.
Qed.

Lemma archive_Read_within {C Dec : Type} (a : archive C Dec) q bs err a' :
  archive_Read a q = ((bs, err), a') -> length bs <= q.
Proof.
  unfold archive_Read.
  destruct (source_step (a_cur a) q) as [[bs0 err0] s'] eqn:E.
  intros [= <- _ _]. eapply source_step_within. exact E.
Qed.

(** ** The chain of readers as a finite stream *)

Section ReaderNoTee.
Context {C Dec B D A : Type}.
Context `{CK : fileChecksum C} `{FBR : fileBlockReader C Dec B}
        `{DL : decodeLayer D Dec} `{AES : decryptLayer A}.

(** Reading a chain that has no tee does not touch the checksum sink. *)
Lemma reader_Read_cksum fuel : forall (x : reader A) p (s : Reader C Dec B D A) out s',
  hasTee x = false ->
  reader_Read fuel x p s = Some (out, s') ->
  rd_cksum s' = rd_cksum s.
Proof.
  induction x as [d | c | | inner IH n shortErr | inner IH];
    intros p s out s' Ht H; cbn [reader_Read hasTee] in *.
  - unfold bind, bytesReader_Read in H.
    destruct d; cbn in H; injection H as _ <-; auto.
  - unfold bind, on_pr in H.
    destruct (raw_Read fuel c p (pr s)) as [[[res c'] f']|]; [|discriminate].
    cbn in H. injection H as _ <-. auto.
  - unfold bind, on_dr in H.
    destruct (dr_Read _ _ _ _) as [[[res d'] [c' f']]|]; [|discriminate].
    cbn in H. injection H as _ <-. auto.
  - unfold bind, limitedReader_Read, limitReader in H.
    cbn [lr_n lr_r lr_shortErr] in H.
    destruct (n <=? 0)%Z; [cbn in H; injection H as _ <-; auto|].
    unfold bind in H.
    match type of H with
    | context [reader_Read fuel inner ?q s] =>
        destruct (reader_Read fuel inner q s) as [[[[bs err] x'] s1]|] eqn:E
    end; [|discriminate].
    apply (IH _ _ _ _ Ht) in E.
    destruct (isEOF err && _); cbn in H; injection H as _ <-; exact E.
  - discriminate.
Qed.

End ReaderNoTee.

Section ArchiveStreams.
Context {C Dec D A : Type}.
Context `{CK : fileChecksum C} `{DL : decodeLayer D Dec} `{AES : decryptLayer A}.

Local Notation "'RD'" := (Reader C Dec (archive C Dec) D A).
Implicit Types s : RD.

Lemma reader_Read_packed fi p s :
  reader_Read fi (RRaw RPacked) p s
  = match packedFileReader_Read fi p (pr s) with
    | None => None
    | Some (res, f') => Some ((res, RRaw RPacked), set_pr f' s)
    end.
Proof.
  cbn [reader_Read raw_Read]. unfold bind, on_pr, bind.
  destruct (packedFileReader_Read fi p (pr s)) as [[res f']|]; reflexivity.
Qed.

(** The walker over an archive is a finite stream that ends with
    [io.EOF]. *)
Lemma streamStep_packed fi (others : list (fileBlockHeader C Dec * list byte)) :
  streamStep (reader_Read fi) (packedLeft (D := D) fi others) EOF
    (fun _ _ => True).
Proof.
  intros x s data p
    (-> & chunk & eager & solid & cur & payload & chain & Hpr & Hok & Hfi & ->)
    Hp.
  rewrite reader_Read_packed, Hpr.
  destruct (walker_Read_call chunk eager solid others p Hp chain cur payload
              fi Hok Hfi)
    as [(Hnil & Er)
       | (out & cur' & payload' & chain' & Hout & Er & Hcat & Hok' & Hlen & _)].
  - rewrite Er. eexists [], (Some EOF), _, _. split; [reflexivity|].
    split; [simpl; lia|]. right. repeat split. exact Hnil.
  - rewrite Er. eexists out, None, _, _. split; [reflexivity|].
    split.
    { eapply (packedFileReader_Read_within fi p); [|exact Er].
      intros b q bs' err' b'. apply archive_Read_within. }
    left. split; [reflexivity|]. split; [exact Hout|].
    exists (payload' ++ concat (map snd chain')). split; [now rewrite Hcat|].
    split; [reflexivity|].
    exists chunk, eager, solid, cur', payload', chain'.
    cbn [pr set_pr]. repeat split; try assumption. lia.
Qed.

Lemma rawInv_packed fi (others : list (fileBlockHeader C Dec * list byte)) :
  rawInv (packedLeft (D := D) (A := A) fi others).
Proof.
  unfold rawInv. split; [|split].
  - intros x s data y (-> & H). split; [reflexivity | exact H].
  - intros x s data c (-> & H). split; [reflexivity | exact H].
  - intros x s data (-> & _). reflexivity.
Qed.

End ArchiveStreams.

Section ReaderStreams.
Context {C Dec B D A : Type}.
Context `{CK : fileChecksum C} `{FBR : fileBlockReader C Dec B}
        `{DL : decodeLayer D Dec} `{AES : decryptLayer A}.

Local Notation "'RD'" := (Reader C Dec B D A).
Implicit Types s : RD.
Implicit Types I : reader A -> RD -> list byte -> Prop.

(** The size bound over a finite stream. *)
Lemma streamStep_limit fi I F e short :
  streamStep (reader_Read fi) I EOF F ->
  streamStep (reader_Read fi) (limitLeft I e short)
    (if short then e else EOF) (fun _ _ => True).
Proof.
  intros Hs x s data p (inner & n & -> & HB) Hp.
  destruct (streamStep_limited (reader_Read fi) I F e short Hs _ _ _ _ HB Hp)
    as (bs & err & l' & s' & E & Hlen & Hcase).
  cbn [reader_Read]. unfold bind at 1. rewrite E. cbn [ret].
  eexists bs, err, _, s'. split; [reflexivity|]. split; [exact Hlen|].
  destruct Hcase as [(-> & Hne & rest & -> & HB') | (-> & -> & _)].
  - left. split; [reflexivity|]. split; [exact Hne|].
    exists rest. split; [reflexivity|].
    exists (lr_r l'), (lr_n l'). 
    destruct HB' as (inner' & H1 & H2 & H3 & H4 & H5).
    rewrite H5. split; [reflexivity|].
    exists inner'. cbn [limitReader lr_r lr_n lr_shortErr]. auto.
  - right. auto.
Qed.

Lemma rawInv_limit I e short : rawInv I -> rawInv (limitLeft I e short).
Proof.
  intros (Hr & Hc & Ht). unfold rawInv. split; [|split].
  - intros x s data y (inner & n & -> & d0 & H1 & H2).
    exists inner, n. split; [reflexivity|]. exists d0. split; [|exact H2].
    apply Hr. exact H1.
  - intros x s data c (inner & n & -> & d0 & H1 & H2).
    exists inner, n. split; [reflexivity|]. exists d0. split; [|exact H2].
    apply Hc. exact H1.
  - intros x s data (inner & n & -> & d0 & H1 & _). cbn [hasTee].
    eapply Ht. exact H1.
Qed.

(** The checksum tee over a finite stream: the same stream, and at its end
    the sink has been written all of it. *)
Lemma streamStep_tee fi I F e bad :
  sinkSound (C := C) -> rawInv I ->
  streamStep (reader_Read fi) I e F ->
  streamStep (reader_Read fi) (teeLeft I bad) e
    (fun _ s' => checksumBad s' = bad).
Proof.
  intros (Hw1 & Hw2 & Hw3) (_ & Hc & Ht) Hs x s data p
    (inner & c & -> & HI & Hck & Hbad) Hp.
  destruct (Hs inner s data p HI Hp)
    as (bs & err & x1 & s1 & E & Hlen & Hcase).
  assert (Hck1 : rd_cksum s1 = Some c).
  { rewrite <- Hck. eapply reader_Read_cksum; [|exact E]. eapply Ht. exact HI. }
  assert (Ew : forall bs0, cksum_Write bs0 s1
                = Some ((length bs0, None),
                        set_cksum (Some (snd (ck_Write c bs0))) s1)).
  { intros bs0. unfold cksum_Write. rewrite Hck1.
    pose proof (Hw1 c bs0) as Hf.
    destruct (ck_Write c bs0) as [res c']. cbn [fst snd] in *. now subst. }
  cbn [reader_Read]. unfold bind at 1. unfold teeReader_Read, bind.
  rewrite E.
  destruct Hcase as [(-> & Hne & rest & -> & HI') | (-> & -> & HF)].
  - assert (Hpos : (0 <? length bs) = true).
    { apply Nat.ltb_lt. destruct bs; [congruence | simpl; lia]. }
    rewrite Hpos, Ew. cbn [ret].
    eexists bs, None, _, _. split; [reflexivity|]. split; [exact Hlen|].
    left. split; [reflexivity|]. split; [exact Hne|].
    exists rest. split; [reflexivity|].
    exists x1, (snd (ck_Write c bs)). split; [reflexivity|].
    split; [apply Hc; exact HI'|]. split; [reflexivity|].
    rewrite <- Hw2. exact Hbad.
  - destruct (0 <? length bs) eqn:Hpos.
    + rewrite Ew. cbn [ret].
      eexists bs, (Some e), _, _. split; [reflexivity|]. split; [exact Hlen|].
      right. repeat split. exact Hbad.
    + cbn [ret]. eexists bs, (Some e), _, _. split; [reflexivity|].
      split; [exact Hlen|]. right. repeat split.
      unfold checksumBad. rewrite Hck1.
      apply Nat.ltb_ge in Hpos. destruct bs; [|simpl in Hpos; lia].
      rewrite Hw3 in Hbad. exact Hbad.
Qed.

(** A finite stream without a tee, read with no sink attached, leaves no
    sink attached. *)
Lemma streamStep_noSink fi I F e :
  rawInv I ->
  streamStep (reader_Read fi) I e F ->
  streamStep (reader_Read fi)
    (fun x s data => I x s data /\ rd_cksum s = None) e
    (fun _ s' => checksumBad s' = false).
Proof.
  intros (_ & _ & Ht) Hs x s data p (HI & Hck) Hp.
  destruct (Hs x s data p HI Hp) as (bs & err & x1 & s1 & E & Hlen & Hcase).
  assert (Hck1 : rd_cksum s1 = None).
  { rewrite <- Hck. eapply reader_Read_cksum; [|exact E]. eapply Ht. exact HI. }
  exists bs, err, x1, s1. split; [exact E|]. split; [exact Hlen|].
  destruct Hcase as [(-> & Hne & rest & -> & HI') | (-> & -> & HF)].
  - left. repeat split; auto. exists rest. auto.
  - right. repeat split. unfold checksumBad. now rewrite Hck1.
Qed.

(** [Reader.Read] over a finite stream in [r.r]: the same stream, ended by
    [errBadFileChecksum] in place of [io.EOF] when the sink is invalid. *)
Lemma streamStep_Reader fi I e bad :
  (forall x s data y, I x s data -> I x (set_r y s) data) ->
  streamStep (reader_Read fi) I e (fun _ s' => checksumBad s' = bad) ->
  streamStep (asReader (Reader_Read fi)) (readerLeft I)
    (if error_eqb e EOF && bad then errBadFileChecksum else e)
    (fun _ _ => True).
Proof.
  intros Hr Hs [] s data p HI Hp. unfold readerLeft in HI.
  destruct (Hs (r s) s data p HI Hp) as (bs & err & x1 & s1 & E & Hlen & Hcase).
  rewrite asReader_call. unfold Reader_Read, chain_Read. rewrite E.
  destruct Hcase as [(-> & Hne & rest & -> & HI') | (-> & -> & HF)].
  - cbn [isEOF andb]. eexists bs, None, tt, _. split; [reflexivity|].
    split; [exact Hlen|]. left. repeat split; auto.
    exists rest. split; [reflexivity|]. unfold readerLeft. cbn [r set_r].
    apply Hr. exact HI'.
  - cbn [isEOF]. unfold checksumBad in HF.
    change (rd_cksum (set_r x1 s1)) with (rd_cksum s1).
    replace (match rd_cksum s1 with
             | Some c => negb (valid c)
             | None => false
             end) with bad.
    destruct (error_eqb e EOF && bad) eqn:Eb.
    + eexists bs, _, tt, _. split; [reflexivity|]. split; [exact Hlen|].
      right. repeat split.
    + eexists bs, _, tt, _. split; [reflexivity|]. split; [exact Hlen|].
      right. repeat split.
Qed.

Lemma teeLeft_set_r (I : reader A -> RD -> list byte -> Prop) bad :
  rawInv I ->
  forall x s data y, teeLeft I bad x s data -> teeLeft I bad x (set_r y s) data.
Proof.
  intros (Hr & _) x s data y (inner & c & -> & HI & Hck & Hb).
  exists inner, c. repeat split; auto.
Qed.

End ReaderStreams.

(** ** A stored file, end to end *)

Section StoredFile.
Context {C Dec D A : Type}.
Context `{CK : fileChecksum C} `{DL : decodeLayer D Dec} `{AES : decryptLayer A}.

Local Notation "'RD'" := (Reader C Dec (archive C Dec) D A).
Implicit Types s : RD.

(** The walker's [next] over an archive: the rest of the current file is
    skipped and the first block of the next file becomes current. *)
Lemma walker_next chunk eager solid cur0 payload0
    (chain0 : list (fileBlockHeader C Dec * list byte)) h pl rest fuel :
  startOk cur0 chain0 = true -> length chain0 <= fuel ->
  packedFileReader_next fuel
    (walker chunk eager solid cur0 payload0 (chain0 ++ (h, pl) :: rest))
  = Some (if first h then inl h else inr errInvalidFileBlock,
          walker chunk eager solid (Some h) pl rest).
Proof.
  intros Hs Hf. unfold packedFileReader_next.
  assert (Esk : exists payload1 cur1,
             skipToLast fuel
               (walker chunk eager solid cur0 payload0
                  (chain0 ++ (h, pl) :: rest))
             = Some (None, walker chunk eager solid cur1 payload1
                             ((h, pl) :: rest))).
  { destruct cur0 as [c|]; cbn [startOk] in Hs.
    - eexists _, _. apply (skipToLast_advances (length chain0)); [|exact Hf].
      apply walker_advances. exact Hs.
    - destruct chain0; [|discriminate]. exists payload0, None.
      destruct fuel; reflexivity. }
  destruct Esk as (payload1 & cur1 & ->).
  cbn. destruct (first h); reflexivity.
Qed.

(** [Next] on a file that is neither encrypted nor compressed, with no
    solid stream pending. *)
Lemma Reader_Next_stored s0 chunk eager solid cur0 payload0 chain0 h pl rest fuel :
  solidr s0 = None ->
  pr s0 = walker chunk eager solid cur0 payload0 (chain0 ++ (h, pl) :: rest) ->
  startOk cur0 chain0 = true -> length chain0 <= fuel ->
  first h = true -> decoder h = None -> key h = [] \/ iv h = [] ->
  Reader_Next fuel s0
  = Some (inl (hdr h),
          {| r := storedChain h;
             pr := walker chunk eager solid (Some h) pl rest;
             dr := dr s0;
             rd_cksum := cksum h;
             solidr := None;
             trace := trace s0 ++ [EvPackedNext] |}).
Proof.
  intros Hsol Hpr Hs Hf Hfirst Hdec Hkey.
  unfold Reader_Next, drainSolid. rewrite Hsol.
  unfold nextFile, on_pr. cbn [pr log]. rewrite Hpr.
  rewrite (walker_next _ _ _ _ _ _ _ _ _ _ Hs Hf), Hfirst.
  assert (Ek : (0 <? length (key h)) && (0 <? length (iv h)) = false).
  { destruct Hkey as [-> | ->]; cbn; [reflexivity | apply andb_false_r]. }
  rewrite Ek. unfold initDecode. rewrite Hdec.
  unfold storedChain, chainOver, isBoundedFile.
  destruct ((UnPackedSize (hdr h) >=? 0)%Z && negb (UnKnownSize (hdr h)));
    cbn [set_cksum set_r set_solidr set_pr rd_cksum r];
    destruct (cksum h); reflexivity.
Qed.

(** X2.  A stored file, end to end.  [Next] skips what was left of
    the file before and returns the header of the file; [Read] until the
    first error then delivers the payloads of the blocks of the file, cut
    at the declared size when that bounds the file, and ends with
    [errShortFile] when the blocks hold less than that, with
    [errBadFileChecksum] when the checksum of what was delivered is
    wrong, and with [io.EOF] otherwise. *)
Theorem Reader_stored_file s0 chunk eager solid cur0 payload0 chain0 h pl
    chain others fuel :
  sinkSound (C := C) ->
  solidr s0 = None ->
  pr s0 = walker chunk eager solid cur0 payload0
            (chain0 ++ (h, pl) :: chain ++ others) ->
  startOk cur0 chain0 = true -> length chain0 <= fuel ->
  first h = true -> decoder h = None -> key h = [] \/ iv h = [] ->
  chainOk h chain = true -> length chain <= fuel ->
  (UnPackedSize (hdr h) < 2 ^ 63)%Z ->
  exists s',
    Reader_Next fuel s0 = Some (inl (hdr h), s')
    /\ forall k fo,
         0 < k ->
         length (delivered h (pl ++ concat (map snd chain))) < fo ->
         exists s'',
           readAll (asReader (Reader_Read fuel)) fo k tt s'
           = Some ((delivered h (pl ++ concat (map snd chain)),
                    finalError h (pl ++ concat (map snd chain)), tt), s'').
Proof.
  intros Hsink Hsol Hpr Hs Hf0 Hfirst Hdec Hkey Hok Hf Hsz.
  eexists. split.
  { eapply Reader_Next_stored; eassumption. }
  intros k fo Hk Hfo.
  set (stream := pl ++ concat (map snd chain)) in *.
  set (I0 := packedLeft (D := D) (A := A) fuel others).
  pose proof (streamStep_packed (D := D) (A := A) fuel others) as S0.
  pose proof (rawInv_packed (D := D) (A := A) fuel others) as R0.
  fold I0 in S0, R0.
  match goal with
  | |- context [readAll _ fo k tt ?st] => set (s1 := st)
  end.
  assert (H0 : I0 (RRaw RPacked) s1 stream).
  { split; [reflexivity|].
    exists chunk, eager, solid, h, pl, chain. repeat split; auto. }
  assert (Hgoal : forall Itop e,
            streamStep (asReader (Reader_Read fuel)) (readerLeft Itop) e
              (fun _ _ => True) ->
            Itop (r s1) s1 (delivered h stream) ->
            e = finalError h stream ->
            exists s'',
              readAll (asReader (Reader_Read fuel)) fo k tt s1
              = Some ((delivered h stream, finalError h stream, tt), s'')).
  { intros Itop e HS HI ->.
    destruct (streamStep_readAll _ _ _ _ HS fo tt s1 (delivered h stream) k
                HI Hk Hfo) as ([] & s'' & E & _).
    exists s''. exact E. }
  unfold finalError, isShort, delivered in *.
  subst s1. unfold storedChain, chainOver in *.
  destruct (isBoundedFile (hdr h)) eqn:Eb; cbn [andb] in *.
  - (* bounded by the declared size *)
    assert (Hn : (0 <= UnPackedSize (hdr h) < 2 ^ 63)%Z).
    { unfold isBoundedFile in Eb. apply andb_true_iff in Eb.
      destruct Eb as [Eb _]. apply Z.geb_le in Eb. lia. }
    set (short := (Z.of_nat (length stream) <? UnPackedSize (hdr h))%Z) in *.
    set (I1 := limitLeft I0 errShortFile short).
    pose proof (streamStep_limit fuel I0 _ errShortFile short S0) as S1.
    pose proof (rawInv_limit I0 errShortFile short R0) as R1.
    fold I1 in S1, R1.
    match goal with
    | |- context [readAll _ fo k tt ?st] => set (s1 := st) in *
    end.
    assert (H1 : I1 (RLimit (RRaw RPacked) (UnPackedSize (hdr h))
                       (Some errShortFile)) s1
                   (firstn (Z.to_nat (UnPackedSize (hdr h))) stream)).
    { eexists _, _. split; [reflexivity|]. exists stream.
      cbn [limitReader lr_r lr_n lr_shortErr].
      split; [exact H0|]. repeat split; try reflexivity; lia. }
    destruct (cksum h) as [c|] eqn:Ec.
    + set (bad := negb (valid (snd (ck_Write c
                     (firstn (Z.to_nat (UnPackedSize (hdr h))) stream))))).
      eapply (Hgoal (teeLeft I1 bad)).
      * apply streamStep_Reader; [apply teeLeft_set_r; exact R1|].
        eapply streamStep_tee; eassumption.
      * exists (RLimit (RRaw RPacked) (UnPackedSize (hdr h))
                  (Some errShortFile)), c.
        split; [reflexivity|]. split; [exact H1|]. split; reflexivity.
      * unfold bad. destruct short; [reflexivity|].
        cbn [error_eqb andb]. now destruct (valid _).
    + eapply (Hgoal (fun x s data => I1 x s data /\ rd_cksum s = None)).
      * apply streamStep_Reader.
        -- intros x s data y (HI & Hc). split; [|exact Hc].
           destruct R1 as (Hr & _). apply Hr. exact HI.
        -- eapply streamStep_noSink; eassumption.
      * split; [exact H1 | reflexivity].
      * destruct short; [reflexivity|]. cbn. reflexivity.
  - (* no size bound *)
    match goal with
    | |- context [readAll _ fo k tt ?st] => set (s1 := st) in *
    end.
    destruct (cksum h) as [c|] eqn:Ec.
    + set (bad := negb (valid (snd (ck_Write c stream)))).
      eapply (Hgoal (teeLeft I0 bad)).
      * apply streamStep_Reader; [apply teeLeft_set_r; exact R0|].
        eapply streamStep_tee; eassumption.
      * exists (RRaw RPacked), c.
        split; [reflexivity|]. split; [exact H0|]. split; reflexivity.
      * unfold bad. cbn [error_eqb andb]. now destruct (valid _).
    + eapply (Hgoal (fun x s data => I0 x s data /\ rd_cksum s = None)).
      * apply streamStep_Reader.
        -- intros x s data y (HI & Hc). split; [|exact Hc].
           destruct R0 as (Hr & _). apply Hr. exact HI.
        -- eapply streamStep_noSink; eassumption.
      * split; [exact H0 | reflexivity].
      * reflexivity.
Qed.

End StoredFile.

(** ** The walker stays in its file *)

Section WalkerMore.
Context {C Dec B : Type} `{FBR : fileBlockReader C Dec B}.
Implicit Types f : packedFileReader C Dec B.

Lemma nextBlockInFile_current f o f' cur :
  pf_h f = Some cur ->
  nextBlockInFile f = (o, f') ->
  currentName f' = currentName f
  /\ (sourceNoPanic (B := B) -> o <> Some panicNilDeref).
Proof.
  intros Hh. unfold nextBlockInFile, currentName, sourceNoPanic.
  destruct (fbr_next (pf_r f)) as [[h|err] b] eqn:En.
  - destruct (first h).
    + intros [= <- <-]. cbn. split; [reflexivity | discriminate].
    + rewrite Hh.
      destruct (String.eqb (Name (hdr h)) (Name (hdr cur))) eqn:Es;
        cbn [negb]; intros [= <- <-]; cbn; rewrite ?Hh; cbn.
      * apply String.eqb_eq in Es. rewrite Es. split; [reflexivity|discriminate].
      * split; [reflexivity | discriminate].
  - destruct (error_eqb err EOF) eqn:Ee; intros [= <- <-]; cbn;
      (split; [reflexivity|]); [discriminate|].
    intros (_ & Hn) [= ->]. eapply Hn. exact En.
Qed.

Lemma packedRead_loop_current fuel p : forall res f bs err f',
  packedRead_loop fuel p res f = Some ((bs, err), f') ->
  currentName f' = currentName f
  /\ (sourceNoPanic (B := B) -> snd res <> Some panicNilDeref ->
      err <> Some panicNilDeref).
Proof.
  induction fuel as [|fuel IH]; intros [bs0 err0] f bs err f' H;
    cbn [packedRead_loop snd] in *;
    (destruct (isEOF err0) eqn:Ee;
     [ apply isEOF_true in Ee; subst err0;
       destruct (0 <? length bs0);
       [ injection H as _ <- <-; split; [reflexivity | discriminate] |];
       destruct (pf_h f) as [cur|] eqn:Eh;
       [ destruct (last cur) | ]
     | injection H as _ <- <-; split; [reflexivity | auto] ]);
    try (injection H as _ <- <-; split; [reflexivity | discriminate]).
  - discriminate.
  - destruct (nextBlockInFile f) as [[e|] f1] eqn:En;
      destruct (nextBlockInFile_current _ _ _ _ Eh En) as (Hn & Hp).
    + injection H as _ <- <-. split; [exact Hn|]. intros Hs _. now apply Hp.
    + destruct (fbr_Read (pf_r f1) p) as [[bs1 err1] b1] eqn:Er.
      apply IH in H. destruct H as (Hn' & Hp'). split.
      * rewrite Hn', <- Hn. reflexivity.
      * intros Hs _. apply Hp'; [exact Hs|]. cbn [snd].
        intros ->. destruct Hs as (Hr & _). eapply Hr. exact Er.
Qed.

(** X3.  [packedFileReader.Read] never leaves the current file,
    and never runs into the nil dereference of [nextBlockInFile] when the
    block source does not report one. *)
Theorem packedFileReader_Read_stays fuel p f bs err f' :
  packedFileReader_Read fuel p f = Some ((bs, err), f') ->
  currentName f' = currentName f
  /\ (sourceNoPanic (B := B) -> err <> Some panicNilDeref).
Proof.
  unfold packedFileReader_Read.
  destruct (fbr_Read (pf_r f) p) as [[bs0 err0] b0] eqn:Er.
  intros H. apply packedRead_loop_current in H. destruct H as (Hn & Hp).
  split; [exact Hn|]. intros Hs. apply Hp; [exact Hs|]. cbn [snd].
  intros ->. destruct Hs as (Hr & _). eapply Hr. exact Er.
Qed.

Lemma skipToLast_current fuel : forall f o f',
  skipToLast fuel f = Some (o, f') ->
  currentName f' = currentName f
  /\ (sourceNoPanic (B := B) -> o <> Some panicNilDeref).
Proof.
  induction fuel as [|fuel IH]; intros f o f' H; cbn [skipToLast] in H;
    (destruct (pf_h f) as [cur|] eqn:Eh;
     [ destruct (last cur) | ]);
    try (injection H as <- <-; split; [reflexivity | discriminate]).
  - discriminate.
  - destruct (nextBlockInFile f) as [[e|] f1] eqn:En;
      destruct (nextBlockInFile_current _ _ _ _ Eh En) as (Hn & Hp).
    + injection H as <- <-. split; [exact Hn | exact Hp].
    + apply IH in H. destruct H as (Hn' & Hp'). split; [|exact Hp'].
      rewrite Hn', <- Hn. reflexivity.
Qed.

(** X4.  [packedFileReader.next] never runs into the nil
    dereference either; the record it returns has [first] set and is the
    current record of the walker. *)
Theorem packedFileReader_next_result fuel f res f' :
  packedFileReader_next fuel f = Some (res, f') ->
  (sourceNoPanic (B := B) -> res <> inr panicNilDeref)
  /\ (forall h, res = inl h -> first h = true /\ pf_h f' = Some h).
Proof.
  unfold packedFileReader_next.
  destruct (skipToLast fuel f) as [[[e|] f1]|] eqn:Es; [| |discriminate].
  - intros [= <- <-]. apply skipToLast_current in Es. destruct Es as (_ & Hp).
    split; [|discriminate]. intros Hs [= ->]. now apply Hp.
  - destruct (fbr_next (pf_r f1)) as [[h|err] b] eqn:En.
    + destruct (first h) eqn:Ef; cbn [negb]; intros [= <- <-].
      * split; [discriminate|]. intros h' [= <-]. auto.
      * split; discriminate.
    + intros [= <- <-]. split; [|discriminate].
      intros (_ & Hn) [= ->]. eapply Hn. exact En.
Qed.

End WalkerMore.

(** ** The shape of the chain *)

Section ReaderMore.
Context {C Dec B D A : Type}.
Context `{CK : fileChecksum C} `{FBR : fileBlockReader C Dec B}
        `{DL : decodeLayer D Dec} `{AES : decryptLayer A}.
Implicit Types s : Reader C Dec B D A.
Implicit Types x : reader A.

(** Reading a chain keeps a sink that is attached. *)
Lemma reader_Read_sink fuel : forall x p s out s',
  reader_Read fuel x p s = Some (out, s') ->
  rd_cksum s <> None -> rd_cksum s' <> None.
Proof.
  induction x as [d | c | | inner IH n shortErr | inner IH];
    intros p s out s' H Hs; cbn [reader_Read] in H.
  - unfold bind, bytesReader_Read in H.
    destruct d; cbn in H; injection H as _ <-; auto.
  - unfold bind, on_pr in H.
    destruct (raw_Read fuel c p (pr s)) as [[[res c'] f']|]; [|discriminate].
    cbn in H. injection H as _ <-. auto.
  - unfold bind, on_dr in H.
    destruct (dr_Read _ _ _ _) as [[[res d'] [c' f']]|]; [|discriminate].
    cbn in H. injection H as _ <-. auto.
  - unfold bind, limitedReader_Read, limitReader in H.
    cbn [lr_n lr_r lr_shortErr] in H.
    destruct (n <=? 0)%Z; [cbn in H; injection H as _ <-; auto|].
    unfold bind in H.
    match type of H with
    | context [reader_Read fuel inner ?q s] =>
        destruct (reader_Read fuel inner q s) as [[[[bs err] x'] s1]|] eqn:E
    end; [|discriminate].
    apply IH in E; [|exact Hs].
    destruct (isEOF err && _); cbn in H; injection H as _ <-; exact E.
  - unfold bind, teeReader_Read in H. unfold bind in H.
    destruct (reader_Read fuel inner p s) as [[[[bs err] x'] s1]|] eqn:E;
      [|discriminate].
    apply IH in E; [|exact Hs].
    destruct (0 <? length bs).
    + unfold cksum_Write in H.
      destruct (rd_cksum s1) as [c|]; [|congruence].
      destruct (ck_Write c bs) as [[n werr] c'].
      destruct werr; cbn in H; injection H as _ <-; discriminate.
    + cbn in H. injection H as _ <-. exact E.
Qed.

Lemma reader_Read_base fuel x p s res x' s' :
  isBase x = true ->
  reader_Read fuel x p s = Some ((res, x'), s') ->
  isBase x' = true.
Proof.
  destruct x as [[|a d] | c | | |]; try discriminate; intros _ H;
    cbn [reader_Read] in H.
  - injection H as _ <- _. reflexivity.
  - unfold bind, on_pr in H.
    destruct (raw_Read fuel c p (pr s)) as [[[res0 c'] f']|]; [|discriminate].
    cbn in H. injection H as _ <- _. reflexivity.
  - unfold bind, on_dr in H.
    destruct (dr_Read _ _ _ _) as [[[res0 d'] [c' f']]|]; [|discriminate].
    cbn in H. injection H as _ <- _. reflexivity.
Qed.

Lemma isBase_noTee x : isBase x = true -> hasTee x = false.
Proof.
  destruct x as [d | c | | inner n shortErr | inner]; cbn;
    try (destruct d); try discriminate; reflexivity.
Qed.

Lemma reader_Read_lim fuel x p s res x' s' :
  isLim x = true ->
  reader_Read fuel x p s = Some ((res, x'), s') ->
  isLim x' = true.
Proof.
  intros Hl H.
  destruct x as [d | c | | inner n shortErr | inner];
    try (eapply reader_Read_base in H; [|exact Hl];
         destruct x' as [[|] | | | |]; try discriminate; reflexivity).
  - cbn [isLim] in Hl.
    destruct shortErr as [[]|]; try discriminate.
    cbn [reader_Read] in H. unfold bind, limitedReader_Read, limitReader in H.
    cbn [lr_n lr_r lr_shortErr] in H.
    destruct (n <=? 0)%Z; [cbn in H; injection H as _ <- _; exact Hl|].
    unfold bind in H.
    match type of H with
    | context [reader_Read fuel inner ?q s] =>
        destruct (reader_Read fuel inner q s) as [[[[bs err] y] s1]|] eqn:E
    end; [|discriminate].
    eapply reader_Read_base in E; [|exact Hl].
    destruct (isEOF err && _); cbn in H; injection H as _ <- _; exact E.
Qed.

Lemma isLim_noTee x : isLim x = true -> hasTee x = false.
Proof.
  destruct x as [d | c | | inner n shortErr | inner]; cbn;
    try (destruct d); try discriminate; try reflexivity.
  destruct shortErr as [e|]; [destruct e|]; try discriminate.
  apply isBase_noTee.
Qed.

Lemma reader_Read_shape fuel x p s res x' s' :
  shapeOK x = true ->
  reader_Read fuel x p s = Some ((res, x'), s') ->
  shapeOK x' = true /\ hasTee x' = hasTee x.
Proof.
  intros Hs H.
  destruct x as [d | c | | inner n shortErr | inner].
  1-4: pose proof (reader_Read_lim _ _ _ _ _ _ _ Hs H) as Hl;
       pose proof (isLim_noTee _ Hl) as Ht;
       pose proof (isLim_noTee _ Hs) as Ht0;
       rewrite Ht, Ht0; split; [|reflexivity];
       destruct x'; try exact Hl; discriminate.
  cbn [shapeOK] in Hs. cbn [reader_Read] in H.
  unfold bind, teeReader_Read in H. unfold bind in H.
  destruct (reader_Read fuel inner p s) as [[[[bs err] y] s1]|] eqn:E;
    [|discriminate].
  eapply reader_Read_lim in E; [|exact Hs].
  destruct (0 <? length bs).
  - destruct (cksum_Write bs s1) as [[[n werr] s2]|]; [|discriminate].
    destruct werr; cbn in H; injection H as _ <- _; auto.
  - cbn in H. injection H as _ <- _. auto.
Qed.

(** Draining the decode layer. *)
Lemma ioCopyDiscard_decode fuel : forall fo s e x' s',
  ioCopyDiscard (solid_Read fuel) fo RDecode s = Some ((e, x'), s') ->
  x' = RDecode /\ r s' = r s /\ rd_cksum s' = rd_cksum s
  /\ solidr s' = solidr s.
Proof.
  induction fo as [|fo IH]; intros s e x' s' H; [discriminate|].
  cbn [ioCopyDiscard] in H. unfold bind, solid_Read in H.
  destruct (reader_Read fuel RDecode discardBufSize s)
    as [[[[bs err] x1] s1]|] eqn:E; [|discriminate].
  pose proof (reader_Read_frame _ _ _ _ _ _ E) as (_ & Hso & Hr).
  pose proof (reader_Read_cksum fuel RDecode _ _ _ _ eq_refl E) as Hc.
  assert (x1 = RDecode).
  { cbn [reader_Read] in E. unfold bind, on_dr in E.
    destruct (dr_Read _ _ _ _) as [[[res d'] [c' f']]|]; [|discriminate].
    cbn in E. now injection E as _ <- _. }
  subst x1.
  destruct err as [e0|].
  - destruct (error_eqb e0 EOF); cbn in H; injection H as _ <- <-;
      cbn [r rd_cksum solidr log]; auto.
  - apply IH in H. destruct H as (-> & H1 & H2 & H3).
    cbn [r rd_cksum solidr log] in *. repeat split; congruence.
Qed.

(** X5.  The solid drain of [Next] reads the decode layer itself:
    what it reads goes neither through the size bound nor to the checksum
    sink, [r.r] stays as it was, and the drain fails with the first error
    that is not [io.EOF]. *)
Theorem drainSolid_bypasses fuel s e s' :
  solidr s = Some RDecode ->
  drainSolid fuel s = Some (e, s') ->
  r s' = r s /\ rd_cksum s' = rd_cksum s /\ solidr s' = Some RDecode
  /\ exists pre n e0,
       trace s' = trace s ++ solidReads pre n e0
       /\ e = if error_eqb e0 EOF then None else Some e0.
Proof.
  intros Hs H. unfold drainSolid in H. rewrite Hs in H.
  destruct (ioCopyDiscard (solid_Read fuel) fuel RDecode s)
    as [[[e1 x1] s1]|] eqn:E; [|discriminate].
  injection H as <- <-.
  pose proof (ioCopyDiscard_trace _ _ _ _ _ _ _ E) as Ht.
  apply ioCopyDiscard_decode in E. destruct E as (-> & Hr & Hc & _).
  cbn [r rd_cksum solidr set_solidr trace]. auto.
Qed.

(** X6.  An invariant of the [Reader]: [r.r] has one of the shapes
    [init] and [Next] build, a tee in it has a checksum sink to write to,
    and a pending solid stream is the decode layer.  [init] establishes
    it; [Read] and [Next] keep it. *)
Theorem Reader_wellformed :
  (forall (d0 : D) (fbr : B),
      wfReader (Reader_init d0 fbr : Reader C Dec B D A))
  /\ (forall fuel p s res s',
        wfReader s -> Reader_Read fuel p s = Some (res, s') -> wfReader s')
  /\ (forall fuel s res s',
        wfReader s -> Reader_Next fuel s = Some (res, s') -> wfReader s').
Proof.
  split; [|split].
  - intros d0 fbr. unfold wfReader. cbn. repeat split; auto. discriminate.
  - intros fuel p s res s' (Hsh & Ht & Hso) H.
    unfold Reader_Read, chain_Read in H.
    destruct (reader_Read fuel (r s) p s) as [[[[bs err] x'] s1]|] eqn:E;
      [|discriminate].
    destruct (reader_Read_shape _ _ _ _ _ _ _ Hsh E) as (Hsh' & Ht').
    pose proof (reader_Read_frame _ _ _ _ _ _ E) as (_ & Hso' & _).
    pose proof (reader_Read_sink _ _ _ _ _ _ E) as Hk.
    assert (W : wfReader (set_r x' s1)).
    { unfold wfReader. cbn [r rd_cksum solidr set_r].
      split; [exact Hsh'|]. split; [|now rewrite Hso'].
      rewrite Ht'. intros Hx. apply Hk. now apply Ht. }
    destruct (isEOF err && _); injection H as _ <-; exact W.
  - intros fuel s res s' (Hsh & Ht & Hso) H. unfold Reader_Next in H.
    assert (Hd : forall e s1, drainSolid fuel s = Some (e, s1) ->
                 r s1 = r s /\ rd_cksum s1 = rd_cksum s
                 /\ (solidr s1 = None \/ solidr s1 = Some RDecode)).
    { intros e s1 Hdr. destruct Hso as [Hn|Hsd].
      - unfold drainSolid in Hdr. rewrite Hn in Hdr.
        injection Hdr as _ <-. auto.
      - unfold drainSolid in Hdr. rewrite Hsd in Hdr.
        destruct (ioCopyDiscard (solid_Read fuel) fuel RDecode s)
          as [[[e1 x1] s2]|] eqn:E; [|discriminate].
        injection Hdr as _ <-.
        apply ioCopyDiscard_decode in E. destruct E as (-> & Hr & Hc & _).
        cbn [r rd_cksum solidr set_solidr]. auto. }
    destruct (drainSolid fuel s) as [[[e|] s1]|] eqn:Ed; [| |discriminate].
    + injection H as _ <-. destruct (Hd _ _ eq_refl) as (H1 & H2 & H3).
      unfold wfReader. rewrite H1, H2. auto.
    + destruct (Hd _ _ eq_refl) as (H1 & H2 & H3). clear Hd.
      unfold nextFile, on_pr in H. cbn [pr log] in H.
      destruct (packedFileReader_next fuel (pr s1)) as [[[h|e] f']|];
        [| |discriminate].
      * unfold initDecode, on_dr in H.
        cbn [dr pr r set_r set_solidr set_pr] in H.
        destruct (decoder h) as [dec|].
        -- destruct (dr_init _ _ _ _ _ _) as [[[[e|] d'] [c' f1]]|];
             [| |discriminate].
           ++ injection H as _ <-. unfold wfReader. cbn.
              split; [reflexivity|]. split; [discriminate|]. now left.
           ++ cbn [set_r set_dr set_pr set_solidr pr pf_r r] in H.
              destruct (isSolid (pf_r f1));
                destruct (isBoundedFile (hdr h)) eqn:Eb;
                unfold isBoundedFile in Eb; rewrite Eb in H;
                cbn [set_cksum set_r set_solidr rd_cksum r] in H;
                destruct (cksum h); injection H as _ <-;
                unfold wfReader; cbn; repeat split; auto; discriminate.
        -- destruct (isBoundedFile (hdr h)) eqn:Eb;
             unfold isBoundedFile in Eb; rewrite Eb in H;
             cbn [set_cksum set_r set_solidr rd_cksum r] in H;
             destruct (cksum h); injection H as _ <-;
             unfold wfReader; cbn; repeat split; auto; discriminate.
      * injection H as _ <-. unfold wfReader.
        cbn [r rd_cksum solidr set_pr log]. rewrite H1, H2. auto.
Qed.

End ReaderMore.

(** ** What [Next] builds *)

Section ReaderLayers.
Context {C Dec B D A : Type}.
Context `{CK : fileChecksum C} `{FBR : fileBlockReader C Dec B}
        `{DL : decodeLayer D Dec} `{AES : decryptLayer A}.
Implicit Types s : Reader C Dec B D A.

(** X7.  What a successful [Next] leaves behind: the solid stream
    was drained without error, [next] of the walker returned the record
    whose header [Next] returns, the sink is the checksum of that record,
    and [r.r] is the decode layer, a decrypter or the walker, under the
    size bound and the tee the record asks for; a file that is not
    compressed leaves no solid stream pending and the decode layer as it
    was. *)
Theorem Reader_Next_layers fuel s0 fh s' :
  Reader_Next fuel s0 = Some (inl fh, s') ->
  exists s1 h s2,
    drainSolid fuel s0 = Some (None, s1)
    /\ on_pr (packedFileReader_next fuel) (log EvPackedNext s1)
       = Some (inl h, s2)
    /\ fh = hdr h
    /\ rd_cksum s' = cksum h
    /\ r s'
       = chainOver
           (match decoder h with
            | Some _ => RDecode
            | None =>
                RRaw (if (0 <? length (key h)) && (0 <? length (iv h))
                      then RDecrypt (newAes (key h) (iv h))
                      else RPacked)
            end) h
    /\ (decoder h = None ->
        solidr s' = None /\ dr s' = dr s2 /\ pr s' = pr s2).
Proof.
  intros H. unfold Reader_Next in H.
  destruct (drainSolid fuel s0) as [[[e|] s1]|] eqn:Ed; try discriminate.
  unfold nextFile in H.
  destruct (on_pr (packedFileReader_next fuel) (log EvPackedNext s1))
    as [[[h|e] s2]|] eqn:En; try discriminate.
  exists s1, h, s2. split; [reflexivity|]. split; [exact En|].
  unfold initDecode, on_dr in H. unfold chainOver, isBoundedFile.
  cbn [dr pr r set_r set_solidr set_pr log] in H.
  destruct (decoder h) as [dec|].
  - destruct (dr_init _ _ _ _ _ _) as [[[[e|] d'] [c' f1]]|];
      try discriminate.
    cbn [set_r set_dr set_pr set_solidr pr pf_r r] in H.
    destruct (isSolid (pf_r f1));
      destruct ((UnPackedSize (hdr h) >=? 0)%Z && negb (UnKnownSize (hdr h)));
      cbn [set_cksum set_r set_solidr rd_cksum r] in H;
      destruct (cksum h); injection H as <- <-; cbn;
      repeat split; discriminate.
  - destruct ((UnPackedSize (hdr h) >=? 0)%Z && negb (UnKnownSize (hdr h)));
      cbn [set_cksum set_r set_solidr rd_cksum r] in H;
      destruct (cksum h); injection H as <- <-; cbn; repeat split.
Qed.

Lemma length_counted (n : nat) (bs : list byte) :
  length (counted n bs) = n.
Proof.
  unfold counted. rewrite length_app, length_firstn, repeat_length. lia.
Qed.

(** Every chain keeps the count contract when the collaborators do. *)
Lemma reader_Read_within fuel :
  sourceWithin (B := B) -> decodeWithin (D := D) -> decryptWithin (A := A) ->
  sinkWithin (C := C) ->
  withinBuffer (reader_Read (C := C) fuel).
Proof.
  intros Hsrc Hdec Haes Hsink.
  assert (Hpk : countsOK (packedFileReader_Read (B := B) fuel)).
  { intros q f bs err f' E.
    eapply packedFileReader_Read_within; [exact Hsrc | exact E]. }
  assert (Hraw : forall c q f bs err c' f',
             raw_Read fuel c q f = Some ((bs, err), c', f') ->
             length bs <= q).
  { intros c q f bs err c' f' E.
    destruct c as [|a]; cbn [raw_Read] in E; unfold bind in E.
    - destruct (packedFileReader_Read fuel q f) as [[[bs1 err1] f1]|] eqn:E1;
        [|discriminate].
      cbn in E. injection E as <- _ _ _. eapply Hpk. exact E1.
    - destruct (aes_Read (packedFileReader_Read fuel) a q f)
        as [[[[bs1 err1] a1] f1]|] eqn:E1; [|discriminate].
      cbn in E. injection E as <- _ _ _.
      eapply (Haes _ _ Hpk). exact E1. }
  intros x. induction x as [d | c | | inner IH n shortErr | inner IH];
    intros p s bs err x' s' H; cbn [reader_Read] in H.
  - unfold bind, bytesReader_Read in H.
    destruct d; cbn in H; injection H as <- _ _ _; [simpl; lia|].
    rewrite length_firstn. lia.
  - unfold bind, on_pr in H.
    destruct (raw_Read fuel c p (pr s)) as [[[[bs0 err0] c'] f']|] eqn:E;
      [|discriminate].
    cbn in H. injection H as <- _ _ _. eapply Hraw. exact E.
  - unfold bind, on_dr in H.
    destruct (dr_Read (src_Read fuel) (dr_st (dr s)) p (dr_src (dr s), pr s))
      as [[[[bs0 err0] d'] [c' f']]|] eqn:E; [|discriminate].
    cbn in H. injection H as <- _ _ _.
    eapply (Hdec _ (src_Read fuel)); [|exact E].
    intros q [c0 f0] bs1 err1 [c1 f1] E1. unfold src_Read in E1.
    cbn [fst snd] in E1.
    destruct (raw_Read fuel c0 q f0) as [[[[bs2 err2] c2] f2]|] eqn:E2;
      [|discriminate].
    injection E1 as <- _ _ _. eapply Hraw. exact E2.
  - unfold bind, limitedReader_Read, limitReader in H.
    cbn [lr_n lr_r lr_shortErr] in H.
    destruct (n <=? 0)%Z; [cbn in H; injection H as <- _ _ _; simpl; lia|].
    unfold bind in H.
    match type of H with
    | context [reader_Read fuel inner ?q s] =>
        assert (Hq : q <= p)
          by (destruct (Z.gtb_spec (Z.of_nat p) n); lia);
        destruct (reader_Read fuel inner q s) as [[[[bs0 err0] y] s1]|] eqn:E
    end; [|discriminate].
    apply IH in E.
    destruct (isEOF err0 && _); cbn in H; injection H as <- _ _ _; lia.
  - unfold bind, teeReader_Read in H. unfold bind in H.
    destruct (reader_Read fuel inner p s) as [[[[bs0 err0] y] s1]|] eqn:E;
      [|discriminate].
    apply IH in E.
    destruct (0 <? length bs0).
    + unfold cksum_Write in H.
      destruct (rd_cksum s1) as [c|].
      * destruct (ck_Write c bs0) as [[m werr] c'] eqn:Ew.
        destruct werr as [e|]; cbn in H; injection H as <- _ _ _;
          [|exact E].
        rewrite length_counted. apply Hsink in Ew. lia.
      * cbn in H. injection H as <- _ _ _. cbn. lia.
    + cbn in H. injection H as <- _ _ _. exact E.
Qed.

(** X8.  [Reader.Read], with [limitedReader.Read] and
    [packedFileReader.Read] under it, never returns more bytes than the
    buffer holds when the block source, the decode layer and the decrypt
    layer do not, and the checksum sink, when a write to it fails,
    reports no more bytes than it was given: the tee returns the count of
    a failed write as it is. *)
Theorem Reader_Read_within fuel p s bs err s' :
  sourceWithin (B := B) -> decodeWithin (D := D) -> decryptWithin (A := A) ->
  sinkWithin (C := C) ->
  Reader_Read fuel p s = Some ((bs, err), s') ->
  length bs <= p.
Proof.
  intros Hsrc Hdec Haes Hsink H. unfold Reader_Read, chain_Read in H.
  destruct (reader_Read fuel (r s) p s) as [[[[bs0 err0] x'] s1]|] eqn:E;
    [|discriminate].
  apply (reader_Read_within fuel Hsrc Hdec Haes Hsink) in E.
  destruct (isEOF err0 && _); injection H as <- _ _; exact E.
Qed.

End ReaderLayers.

(** ** The size bound [Next] installs *)

Section ReaderBound.
Context {C Dec B D A : Type}.
Context `{CK : fileChecksum C} `{FBR : fileBlockReader C Dec B}
        `{DL : decodeLayer D Dec} `{AES : decryptLayer A}.
Implicit Types s : Reader C Dec B D A.
Implicit Types x : reader A.





End ReaderBound.

(** ** Enumerating the files *)

Section Enumerate.
Context {C Dec : Type}.
Variables (chunk : nat) (eager solid : bool).

Lemma walker_next_end cur0 payload0
    (chain0 : list (fileBlockHeader C Dec * list byte)) fuel :
  startOk cur0 chain0 = true -> length chain0 <= fuel ->
  exists f',
    packedFileReader_next fuel
      (walker chunk eager solid cur0 payload0 chain0)
    = Some (inr EOF, f')
    /\ pf_h f' = None /\ a_blocks (pf_r f') = [].
Proof.
  intros Hs Hf. unfold packedFileReader_next.
  assert (Esk : exists payload1 cur1,
             skipToLast fuel (walker chunk eager solid cur0 payload0 chain0)
             = Some (None, walker chunk eager solid cur1 payload1 [])).
  { destruct cur0 as [c|]; cbn [startOk] in Hs.
    - eexists _, _. apply (skipToLast_advances (length chain0)); [|exact Hf].
      rewrite <- (app_nil_r chain0) at 2.
      apply walker_advances. exact Hs.
    - destruct chain0; [|discriminate]. exists payload0, None.
      destruct fuel; reflexivity. }
  destruct Esk as (payload1 & cur1 & ->). cbn.
  eexists. split; [reflexivity|]. split; reflexivity.
Qed.

(** X9.  Asking for the next file until [next] fails
    enumerates the files of a well-formed archive in order, whatever was
    left unread of each, and ends with [io.EOF] at the end of the
    archive. *)
Theorem packedFileReader_enumerates (files : list (fileBlocks C Dec)) :
  forallb fileOk files = true ->
  forall cur0 payload0 chain0 fuel n,
    startOk cur0 chain0 = true ->
    length (chain0 ++ flatten files) <= fuel ->
    length files < n ->
    exists f',
      nextAll fuel n
        (walker chunk eager solid cur0 payload0 (chain0 ++ flatten files))
      = Some (map fileFirst files, EOF, f')
      /\ pf_h f' = None /\ a_blocks (pf_r f') = [].
Proof.
  induction files as [|[[h pl] chain] files IH];
    intros Hok cur0 payload0 chain0 fuel n Hs Hf Hn.
  - cbn [flatten flat_map] in *. rewrite app_nil_r in *.
    destruct n as [|n]; [lia|]. cbn [nextAll map].
    destruct (walker_next_end cur0 payload0 chain0 fuel Hs Hf)
      as (f' & -> & H1 & H2).
    exists f'. auto.
  - cbn [forallb] in Hok. apply andb_true_iff in Hok.
    destruct Hok as [Hfile Hok]. unfold fileOk in Hfile.
    cbn [fileFirst fst snd] in Hfile. apply andb_true_iff in Hfile.
    destruct Hfile as [Hfirst Hchain].
    cbn [flatten flat_map fileFirst fst snd app] in *.
    fold (flatten files) in *.
    destruct n as [|n]; [simpl in Hn; lia|]. cbn [nextAll map fileFirst fst].
    rewrite length_app in Hf. cbn [length] in Hf. rewrite length_app in Hf.
    rewrite (walker_next chunk eager solid cur0
               payload0 chain0 h pl (chain ++ flatten files) fuel Hs
               ltac:(lia)).
    rewrite Hfirst.
    destruct (IH Hok (Some h) pl chain fuel n Hchain) as (f' & -> & H1 & H2).
    + rewrite length_app. lia.
    + simpl in Hn. lia.
    + exists f'. auto.
Qed.

End Enumerate.

(** ** The models keep the contracts *)

Lemma source_Read_within (St : Type) : withinBuffer (@source_Read St).
Proof.
  intros x p st bs err x' st' H. unfold source_Read in H.
  destruct (source_step x p) as [[bs0 err0] s'] eqn:E.
  cbn in H. injection H as <- _ _ _. eapply source_step_within. exact E.
Qed.

(** A [source] is a finite stream that ends with [io.EOF]. *)
Lemma streamStep_source (St : Type) :
  streamStep (@source_Read St) sourceLeft EOF (fun _ _ => True).
Proof.
  intros x st data p HI Hp. unfold sourceLeft in HI. subst data.
  unfold source_Read.
  destruct (s_data x) as [|a d] eqn:Ed.
  - rewrite source_step_nil by exact Ed. cbn [ret].
    eexists [], (Some EOF), x, st. split; [reflexivity|].
    split; [simpl; lia|]. right. auto.
  - rewrite <- Ed.
    destruct (source_step_data x p) as (m & err & Hm & Hml & Es & Hne & Hnil);
      [rewrite Ed; discriminate | exact Hp |].
    rewrite Es. cbn [ret].
    eexists (firstn m (s_data x)), err, _, st. split; [reflexivity|].
    split; [rewrite length_firstn; lia|].
    assert (Hc : skipn m (s_data x) = [] \/ skipn m (s_data x) <> [])
      by (destruct (skipn m (s_data x)); [left | right]; congruence).
    assert (Hout : firstn m (s_data x) <> []).
    { intros E. apply (f_equal (@length byte)) in E.
      rewrite length_firstn in E. simpl in E.
      rewrite Ed in *. simpl in *. lia. }
    destruct Hc as [Esk|Esk].
    + rewrite (Hnil Esk). destruct (s_eager x).
      * right. split; [reflexivity|]. split; [|exact I].
        rewrite <- (firstn_skipn m (s_data x)) at 1.
        now rewrite Esk, app_nil_r.
      * left. split; [reflexivity|]. split; [exact Hout|].
        exists []. split.
        -- rewrite app_nil_r. rewrite <- (firstn_skipn m (s_data x)) at 1.
           now rewrite Esk, app_nil_r.
        -- unfold sourceLeft. cbn [s_data]. exact Esk.
    + rewrite (Hne Esk). left. split; [reflexivity|]. split; [exact Hout|].
      exists (skipn m (s_data x)). split.
      * symmetry. apply firstn_skipn.
      * reflexivity.
Qed.

Lemma archive_sourceWithin (C Dec : Type) :
  sourceWithin (B := archive C Dec).
Proof.
  intros b q bs err b'. apply archive_Read_within.
Qed.

Lemma archive_sourceNoPanic (C Dec : Type) :
  sourceNoPanic (B := archive C Dec).
Proof.
  split.
  - intros b q bs b' H. cbn [fbr_Read archive_fileBlockReader] in H.
    unfold archive_Read, source_step in H.
    destruct (s_data (a_cur b)); [discriminate|].
    destruct (skipn _ _); [destruct (s_eager (a_cur b))|]; discriminate.
  - intros b b' H. cbn [fbr_next archive_fileBlockReader] in H.
    unfold archive_next in H. destruct (a_blocks b) as [|[h pl] rest];
      discriminate.
Qed.

Lemma sumCheck_sound : sinkSound (C := sumCheck).
Proof.
  split; [|split].
  - reflexivity.
  - intros c a b. cbn. now rewrite fold_left_app.
  - intros [acc want]. reflexivity.
Qed.

Lemma sumCheck_within : sinkWithin (C := sumCheck).
Proof. intros c bs n e c' H. discriminate. Qed.

Lemma storeDecode_within : decodeWithin (D := nat) (Dec := nat).
Proof.
  intros X cb Hcb d p st bs err d' st' H.
  cbn [dr_Read storeDecode] in H. unfold bind in H.
  destruct (cb p st) as [[[bs0 err0] st0]|] eqn:E; [|discriminate].
  cbn in H. injection H as <- _ _ _. eapply Hcb. exact E.
Qed.

Lemma xorDecrypt_within : decryptWithin (A := byte).
Proof.
  intros X cb Hcb a p st bs err a' st' H.
  cbn [aes_Read xorDecrypt] in H. unfold bind in H.
  destruct (cb p st) as [[[bs0 err0] st0]|] eqn:E; [|discriminate].
  cbn in H. injection H as <- _ _ _. rewrite length_map. eapply Hcb. exact E.
Qed.

(** X10.  Over any reader that hands out a finite stream ending
    with [io.EOF], a bounded reader with limit [L] and short error [e],
    read until the first error with any non-empty buffer, delivers the
    first [L] bytes of the stream, and ends with [e] when the stream is
    shorter than [L] and with [io.EOF] otherwise. *)
Theorem limitedReader_over_stream {St R : Type} (Read : readFn St R)
    (I : R -> St -> list byte -> Prop) (F : R -> St -> Prop)
    (x : R) (st : St) (inner : list byte) (L : Z) (e : error)
    (k fuel : nat) :
  streamStep Read I EOF F -> I x st inner ->
  (0 <= L < 2 ^ 63)%Z -> 0 < k ->
  length (firstn (Z.to_nat L) inner) < fuel ->
  exists l' st',
    readAll (limitedReader_Read Read) fuel k (limitReader x L (Some e)) st
    = Some ((firstn (Z.to_nat L) inner,
             (if (Z.of_nat (length inner) <? L)%Z then e else EOF), l'),
            st').
Proof.
  intros Hs HI HL Hk Hf.
  pose proof (streamStep_limited Read I F e
                (Z.of_nat (length inner) <? L)%Z Hs) as Hl.
  destruct (streamStep_readAll _ _ _ _ Hl fuel (limitReader x L (Some e)) st
              (firstn (Z.to_nat L) inner) k) as (l' & st' & E & _);
    [|exact Hk|exact Hf|].
  - exists inner. cbn [limitReader lr_r lr_n lr_shortErr]. auto.
  - exists l', st'. exact E.
Qed.

(** ** The further properties on the samples *)

Lemma limitedReader_never_exceeds_witness :
  (Z.of_nat (length [x61; x62])
   <= Z.max 0 (lr_n (limitReader (mkSource [x61; x62; x63] 0 true) 2
                       (Some errShortFile))))%Z
  /\ (0 <= lr_n (limitReader (mkSource [x61; x62; x63] 0 true) 2
                   (Some errShortFile)) ->
      lr_n (limitReader (mkSource [x63] 0 true) 0 (Some errShortFile))
      = lr_n (limitReader (mkSource [x61; x62; x63] 0 true) 2
                (Some errShortFile))
        - Z.of_nat (length [x61; x62]))%Z
  /\ (EOF = EOF ->
      (lr_n (limitReader (mkSource [x63] 0 true) 0 (Some errShortFile))
       <= 0)%Z
      \/ lr_shortErr (limitReader (mkSource [x61; x62; x63] 0 true) 2
                        (Some errShortFile)) = Some EOF).
Proof.
  apply (limitedReader_never_exceeds (@source_Read unit) 2
           (source_Read_within unit) 5
           (limitReader (mkSource [x61; x62; x63] 0 true) 2
              (Some errShortFile))
           tt [x61; x62] EOF
           (limitReader (mkSource [x63] 0 true) 0 (Some errShortFile)) tt);
    [vm_compute; reflexivity | vm_compute; reflexivity].
Defined.

Lemma limitedReader_over_stream_witness :
  exists l' st',
    readAll (limitedReader_Read (@source_Read unit)) 4 2
      (limitReader (mkSource [x61; x62; x63] 0 true) 2 (Some errShortFile))
      tt
    = Some ((firstn (Z.to_nat 2) [x61; x62; x63],
             (if (Z.of_nat (length [x61; x62; x63]) <? 2)%Z
              then errShortFile else EOF), l'), st').
Proof.
  apply (limitedReader_over_stream (@source_Read unit) sourceLeft
           (fun _ _ => True) (mkSource [x61; x62; x63] 0 true) tt
           [x61; x62; x63] 2 errShortFile 2 4);
    [apply streamStep_source | reflexivity | lia | lia | simpl; lia].
Defined.

Lemma packedFileReader_Read_stays_witness :
  currentName (walker 2 true true (Some blockA3) [x66]
                 [(blockB1, [x67; x68; x69])])
  = currentName (walker 2 true true (Some blockA1) [] (tl sampleBlocks))
  /\ (sourceNoPanic (B := archive sumCheck nat) ->
      @None error <> Some panicNilDeref).
Proof.
  apply (packedFileReader_Read_stays 5 3
           (walker 2 true true (Some blockA1) [] (tl sampleBlocks))
           [x63; x64; x65] None
           (walker 2 true true (Some blockA3) [x66]
              [(blockB1, [x67; x68; x69])])).
  vm_compute. reflexivity.
Defined.

Lemma packedFileReader_next_result_witness :
  (sourceNoPanic (B := archive sumCheck nat) ->
   @inl (fileBlockHeader sumCheck nat) error blockB1 <> inr panicNilDeref)
  /\ (forall h,
        @inl (fileBlockHeader sumCheck nat) error blockB1 = inl h ->
        first h = true
        /\ pf_h (walker 2 true true (Some blockB1) [x67; x68; x69] [])
           = Some h).
Proof.
  apply (packedFileReader_next_result 5
           (walker 2 true true (Some blockA1) [] (tl sampleBlocks))
           (inl blockB1)
           (walker 2 true true (Some blockB1) [x67; x68; x69] [])).
  vm_compute. reflexivity.
Defined.

Lemma Reader_Read_within_witness : length [x61] <= 1.
Proof.
  apply (Reader_Read_within 10 1 sample1 [x61] None sample2
           (archive_sourceWithin sumCheck nat) storeDecode_within
           xorDecrypt_within sumCheck_within).
  vm_compute. reflexivity.
Defined.

Lemma packedFileReader_enumerates_witness :
  exists f',
    nextAll 5 3
      (walker 1 false false None []
         ([] ++ flatten [ (blockS1, [x61], [(blockS2, [x62; x63; x64])]);
                          (blockT1, [x65], []) ]))
    = Some (map fileFirst
              [ (blockS1, [x61], [(blockS2, [x62; x63; x64])]);
                (blockT1, [x65], []) ], EOF, f')
    /\ pf_h f' = None /\ a_blocks (pf_r f') = [].
Proof.
  apply (packedFileReader_enumerates 1 false false
           [ (blockS1, [x61], [(blockS2, [x62; x63; x64])]);
             (blockT1, [x65], []) ]
           eq_refl None [] [] 5 3);
    [reflexivity | simpl; lia | simpl; lia].
Defined.

Lemma Reader_Next_layers_witness :
  exists s1 h s2,
    drainSolid 10 sample2 = Some (None, s1)
    /\ on_pr (packedFileReader_next 10) (log EvPackedNext s1)
       = Some (inl h, s2)
    /\ hdr blockB1 = hdr h
    /\ rd_cksum sample3 = cksum h
    /\ r sample3
       = chainOver
           (match decoder h with
            | Some _ => RDecode
            | None =>
                RRaw (if (0 <? length (key h)) && (0 <? length (iv h))
                      then RDecrypt (newAes (key h) (iv h))
                      else RPacked)
            end) h
    /\ (decoder h = None ->
        solidr sample3 = None /\ dr sample3 = dr s2 /\ pr sample3 = pr s2).
Proof.
  apply (Reader_Next_layers 10 sample2 (hdr blockB1) sample3).
  vm_compute. reflexivity.
Defined.

Lemma drainSolid_bypasses_witness :
  r sample2d = r sample2 /\ rd_cksum sample2d = rd_cksum sample2
  /\ solidr sample2d = Some RDecode
  /\ exists pre n e0,
       trace sample2d = trace sample2 ++ solidReads pre n e0
       /\ None = if error_eqb e0 EOF then None else Some e0.
Proof.
  apply (drainSolid_bypasses 10 sample2 None sample2d);
    vm_compute; reflexivity.
Defined.

Lemma Reader_wellformed_witness : wfReader sample1.
Proof.
  destruct (Reader_wellformed (C := sumCheck) (Dec := nat)
              (B := archive sumCheck nat) (D := nat) (A := byte))
    as (Hi & _ & Hn).
  apply (Hn 10 sample0 (inl (hdr blockA1)) sample1
           (Hi 0 (newArchive 2 true true sampleBlocks))).
  vm_compute. reflexivity.
Defined.

Lemma Reader_stored_file_witness :
  exists s',
    Reader_Next 5 stored0 = Some (inl (hdr blockS1), s')
    /\ forall k fo,
         0 < k ->
         length (delivered blockS1
                   ([x61] ++ concat (map snd [(blockS2, [x62; x63; x64])])))
         < fo ->
         exists s'',
           readAll (asReader (Reader_Read 5)) fo k tt s'
           = Some ((delivered blockS1
                      ([x61] ++ concat (map snd [(blockS2, [x62; x63; x64])])),
                    finalError blockS1
                      ([x61] ++ concat (map snd [(blockS2, [x62; x63; x64])])),
                    tt), s'').
Proof.
  apply (Reader_stored_file stored0 1 false false None [] [] blockS1 [x61]
           [(blockS2, [x62; x63; x64])] [(blockT1, [x65])] 5
           sumCheck_sound);
    try reflexivity; try (simpl; lia).
  left. reflexivity.
Defined.


(** ** Identifying the format of audio metadata *)

Import Tag.

Lemma bytes_eqb_eq (a b : list byte) : bytes_eqb a b = true <-> a = b.
Proof.
  revert b. induction a as [|x a IH]; intros [|y b]; cbn; split;
    try discriminate; try reflexivity.
  - intros H. apply andb_true_iff in H. destruct H as [H1 H2].
    apply Byte.byte_dec_bl in H1. apply IH in H2. congruence.
  - intros [= -> ->]. apply andb_true_iff. split.
    + now apply Byte.byte_dec_lb.
    + now apply IH.
Qed.

Lemma slice_prefix (b : list byte) : slice b 0 3 = firstn 3 (slice b 0 4).
Proof.
  unfold slice. cbn [skipn Nat.sub]. now rewrite firstn_firstn.
Qed.

Section Seekers.
Context {S : Type} `{RS : readSeeker S}.

(** [Identify] after its first two calls, on a header of eleven bytes. *)
Lemma Identify_header (r : S) b r1 p r2 :
  readBytes r 11 = (inl b, r1) -> Seek r1 (-11) SEEK_CUR = (inl p, r2) ->
  length b = 11 ->
  Identify r
  = if bytes_eqb (slice b 0 4) (list_byte_of_string "fLaC")
    then ((VORBIS, FLAC, None), r2)
    else if bytes_eqb (slice b 0 4) (list_byte_of_string "OggS")
    then ((VORBIS, OGG, None), r2)
    else if bytes_eqb (slice b 4 11) (list_byte_of_string "ftypM4A")
    then ((AAC, MP4, None), r2)
    else if bytes_eqb (slice b 0 3) (list_byte_of_string "ID3")
    then
      let v := Byte.to_N (nth 3 b x00) in
      if (v =? 2)%N then ((ID3v2_2, MP3, None), r2)
      else if (v =? 3)%N then ((ID3v2_3, MP3, None), r2)
      else if (v =? 4)%N then ((ID3v2_4, MP3, None), r2)
      else failed (errID3Version v) r2
    else
      match Seek r2 (-128) SEEK_END with
      | (inr e, r) => failed (errIO e) r
      | (inl n, r) =>
          match readString r 3 with
          | (inr e, r) => failed (errIO e) r
          | (inl tag, r) =>
              match Seek r (- n) SEEK_CUR with
              | (inr e, r) => failed (errIO e) r
              | (inl _, r) =>
                  if negb (bytes_eqb tag (list_byte_of_string "TAG"))
                  then failed ErrNoTagsFound r
                  else ((ID3v1, MP3, None), r)
              end
          end
      end.
Proof.
  intros E1 E2 Hl. unfold Identify. rewrite E1, E2, Hl.
  cbn [Nat.ltb Nat.leb]. rewrite nth_skipn. reflexivity.
Qed.

(** X11.  When [readBytes] reads in full, [Identify] never slices out of
    range, and it returns either one of the seven known pairs without
    error, or an error with both other results zero. *)
Theorem Identify_outcomes (r : S) fmt ft err r' :
  readsInFull S ->
  Identify r = ((fmt, ft, err), r') ->
  err <> Some panicBounds
  /\ ((err = None /\ In (fmt, ft) identified)
      \/ (err <> None /\ fmt = FormatZero /\ ft = FileTypeZero)).
Proof.
  intros Hfull.
  destruct (readBytes r 11) as [[b|e] r1] eqn:E1.
  - destruct (Seek r1 (-11) SEEK_CUR) as [[p|e] r2] eqn:E2.
    + rewrite (Identify_header r b r1 p r2 E1 E2 (Hfull _ _ _ _ E1)).
      unfold failed, identified.
      repeat match goal with
             | |- context [match ?x with _ => _ end] =>
                 match x with
                 | context [match _ with _ => _ end] => fail 1
                 | _ => destruct x
                 end
             end;
        intros [= <- <- <- <-]; (split; [discriminate|]);
        try (right; repeat split; discriminate);
        left; (split; [reflexivity|]); cbn; tauto.
    + unfold Identify. rewrite E1, E2. unfold failed.
      intros [= <- <- <- <-]. split; [discriminate|].
      right. repeat split; discriminate.
  - unfold Identify. rewrite E1. unfold failed.
    intros [= <- <- <- <-]. split; [discriminate|].
    right. repeat split; discriminate.
Qed.

(** X12.  On a header with a magic number [Identify] stops after the seek
    back, and it tries the magic numbers in order: [fLaC], [OggS],
    [ftypM4A] at offset 4, then [ID3] with its version byte. *)
Theorem Identify_magic (r : S) b r1 p r2 :
  readBytes r 11 = (inl b, r1) -> Seek r1 (-11) SEEK_CUR = (inl p, r2) ->
  length b = 11 -> hasMagic b = true ->
  exists res,
    Identify r = (res, r2)
    /\ (slice b 0 4 = list_byte_of_string "fLaC" ->
        res = (VORBIS, FLAC, None))
    /\ (slice b 0 4 = list_byte_of_string "OggS" ->
        res = (VORBIS, OGG, None))
    /\ (slice b 4 11 = list_byte_of_string "ftypM4A" ->
        slice b 0 4 <> list_byte_of_string "fLaC" ->
        slice b 0 4 <> list_byte_of_string "OggS" ->
        res = (AAC, MP4, None))
    /\ (slice b 0 3 = list_byte_of_string "ID3" ->
        slice b 4 11 <> list_byte_of_string "ftypM4A" ->
        let v := Byte.to_N (nth 3 b x00) in
        res = if (v =? 2)%N then (ID3v2_2, MP3, None)
              else if (v =? 3)%N then (ID3v2_3, MP3, None)
              else if (v =? 4)%N then (ID3v2_4, MP3, None)
              else (FormatZero, FileTypeZero, Some (errID3Version v))).
Proof.
  intros E1 E2 Hl Hm. rewrite (Identify_header r b r1 p r2 E1 E2 Hl).
  unfold hasMagic in Hm.
  destruct (bytes_eqb (slice b 0 4) (list_byte_of_string "fLaC")) eqn:Ea.
  { apply bytes_eqb_eq in Ea. eexists. split; [reflexivity|].
    split; [reflexivity|].
    split; [intros E; rewrite Ea in E; vm_compute in E; discriminate|].
    split; [congruence|].
    intros E _. rewrite slice_prefix, Ea in E. vm_compute in E.
    discriminate. }
  destruct (bytes_eqb (slice b 0 4) (list_byte_of_string "OggS")) eqn:Eb.
  { apply bytes_eqb_eq in Eb. eexists. split; [reflexivity|].
    split; [intros E; rewrite Eb in E; vm_compute in E; discriminate|].
    split; [reflexivity|]. split; [congruence|].
    intros E _. rewrite slice_prefix, Eb in E. vm_compute in E.
    discriminate. }
  assert (Hna : slice b 0 4 <> list_byte_of_string "fLaC")
    by (intros E; apply bytes_eqb_eq in E; congruence).
  assert (Hnb : slice b 0 4 <> list_byte_of_string "OggS")
    by (intros E; apply bytes_eqb_eq in E; congruence).
  destruct (bytes_eqb (slice b 4 11) (list_byte_of_string "ftypM4A")) eqn:Ec.
  { apply bytes_eqb_eq in Ec. eexists. split; [reflexivity|].
    split; [congruence|]. split; [congruence|]. split; [reflexivity|].
    congruence. }
  assert (Hnc : slice b 4 11 <> list_byte_of_string "ftypM4A")
    by (intros E; apply bytes_eqb_eq in E; congruence).
  destruct (bytes_eqb (slice b 0 3) (list_byte_of_string "ID3")) eqn:Ed;
    [|discriminate].
  exists (if (Byte.to_N (nth 3 b x00) =? 2)%N then (ID3v2_2, MP3, None)
          else if (Byte.to_N (nth 3 b x00) =? 3)%N then (ID3v2_3, MP3, None)
          else if (Byte.to_N (nth 3 b x00) =? 4)%N then (ID3v2_4, MP3, None)
          else (FormatZero, FileTypeZero,
                Some (errID3Version (Byte.to_N (nth 3 b x00))))).
  split.
  - cbv zeta. unfold failed.
    destruct (Byte.to_N (nth 3 b x00) =? 2)%N; [reflexivity|].
    destruct (Byte.to_N (nth 3 b x00) =? 3)%N; [reflexivity|].
    destruct (Byte.to_N (nth 3 b x00) =? 4)%N; reflexivity.
  - split; [congruence|]. split; [congruence|]. split; [congruence|].
    intros _ _. reflexivity.
Qed.

(** X13.  Where [Identify] leaves the position of a seeker that keeps the
    contract of [io.Seeker].  On a magic number it is back where it was,
    also when the ID3 version is refused.  After the look for [TAG] it is
    at offset 3, wherever it was: the last seek goes back by the offset
    of the tag, not by what was read; and that look needs 128 bytes of
    data, or [Identify] returns the error of the seek, not
    [ErrNoTagsFound]. *)
Theorem Identify_position (pos size : S -> Z) (r : S) fmt ft err r' :
  seekerLaws S pos size ->
  Identify r = ((fmt, ft, err), r') ->
  (err = None -> fmt <> ID3v1 -> pos r' = pos r)
  /\ (forall v, err = Some (errID3Version v) -> pos r' = pos r)
  /\ (fmt = ID3v1 \/ err = Some ErrNoTagsFound ->
      pos r' = 3%Z /\ (128 <= size r)%Z).
Proof.
  intros L.
  destruct (readBytes r 11) as [[b|e] r1] eqn:E1.
  2:{ unfold Identify. rewrite E1. unfold failed. intros [= <- <- <- <-].
      split; [discriminate|]. split; [discriminate|].
      intros [|]; discriminate. }
  destruct (Seek r1 (-11) SEEK_CUR) as [[p|e] r2] eqn:E2.
  2:{ unfold Identify. rewrite E1, E2. unfold failed. intros [= <- <- <- <-].
      split; [discriminate|]. split; [discriminate|].
      intros [|]; discriminate. }
  destruct (law_readBytes S pos size L _ _ _ _ E1) as (Hl & Hp1 & Hs1).
  destruct (law_Seek S pos size L _ _ _ _ _ E2) as (Hp & Hp2 & Hs2).
  cbn [whenceBase] in Hp.
  assert (Hback : pos r2 = pos r) by lia.
  assert (Hsize : size r2 = size r) by congruence.
  rewrite (Identify_header r b r1 p r2 E1 E2 Hl).
  destruct (bytes_eqb (slice b 0 4) (list_byte_of_string "fLaC")).
  { intros [= <- <- <- <-]. split; [auto|]. split; [discriminate|].
    intros [|]; discriminate. }
  destruct (bytes_eqb (slice b 0 4) (list_byte_of_string "OggS")).
  { intros [= <- <- <- <-]. split; [auto|]. split; [discriminate|].
    intros [|]; discriminate. }
  destruct (bytes_eqb (slice b 4 11) (list_byte_of_string "ftypM4A")).
  { intros [= <- <- <- <-]. split; [auto|]. split; [discriminate|].
    intros [|]; discriminate. }
  destruct (bytes_eqb (slice b 0 3) (list_byte_of_string "ID3")).
  { cbv zeta. unfold failed.
    destruct (Byte.to_N (nth 3 b x00) =? 2)%N;
      [|destruct (Byte.to_N (nth 3 b x00) =? 3)%N;
        [|destruct (Byte.to_N (nth 3 b x00) =? 4)%N]];
      intros [= <- <- <- <-]; (split; [auto; discriminate|]);
      (split; [auto; discriminate|]); intros [|]; discriminate. }
  destruct (Seek r2 (-128) SEEK_END) as [[n|e] r3] eqn:E3.
  2:{ unfold failed. intros [= <- <- <- <-].
      split; [discriminate|]. split; [discriminate|].
      intros [|]; discriminate. }
  destruct (readString r3 3) as [[tag|e] r4] eqn:E4.
  2:{ unfold failed. intros [= <- <- <- <-].
      split; [discriminate|]. split; [discriminate|].
      intros [|]; discriminate. }
  destruct (Seek r4 (- n) SEEK_CUR) as [[m|e] r5] eqn:E5.
  2:{ unfold failed. intros [= <- <- <- <-].
      split; [discriminate|]. split; [discriminate|].
      intros [|]; discriminate. }
  destruct (law_Seek S pos size L _ _ _ _ _ E3) as (Hn & Hp3 & Hs3).
  pose proof (law_Seek_before S pos size L _ _ _ _ _ E3) as Hn0.
  destruct (law_readString S pos size L _ _ _ _ E4) as (Hp4 & Hs4).
  destruct (law_Seek S pos size L _ _ _ _ _ E5) as (Hm & Hp5 & Hs5).
  cbn [whenceBase] in Hn, Hm.
  assert (Hend : pos r5 = 3%Z /\ (128 <= size r)%Z) by lia.
  unfold failed.
  destruct (negb (bytes_eqb tag (list_byte_of_string "TAG")));
    intros [= <- <- <- <-].
  - split; [discriminate|]. split; [discriminate|]. intros _. exact Hend.
  - split; [intros _ Hne; now elim Hne|]. split; [discriminate|].
    intros _. exact Hend.
Qed.

End Seekers.

(** The seeker in memory keeps the contract. *)
Lemma memFile_reads_in_full : readsInFull memFile.
Proof.
  intros f n b f' H. cbn [readBytes memFile_readSeeker] in H.
  unfold mem_readBytes in H. destruct n as [|n].
  - now injection H as <- _.
  - destruct (mem_rest f) as [|a rest]; [discriminate|].
    destruct (Nat.ltb_spec (length (a :: rest)) (S n)); [discriminate|].
    injection H as <- _. cbn [length] in *. rewrite length_firstn. lia.
Qed.

Lemma mem_readBytes_pos (f : memFile) n b f' :
  mem_readBytes f n = (inl b, f') ->
  mf_pos f' = (mf_pos f + Z.of_nat n)%Z /\ mf_size f' = mf_size f.
Proof.
  unfold mem_readBytes. destruct n as [|n].
  - intros [= _ <-]. split; [lia | reflexivity].
  - destruct (mem_rest f) as [|a rest]; [discriminate|].
    destruct (length (a :: rest) <? S n); [discriminate|].
    intros [= _ <-]. split; reflexivity.
Qed.

Lemma memFile_laws : seekerLaws memFile mf_pos mf_size.
Proof.
  split.
  - intros f off w p f' H. cbn [Seek memFile_readSeeker] in H.
    unfold mem_Seek in H.
    destruct (whenceBase mf_pos mf_size f w + off <? 0)%Z; [discriminate|].
    injection H as <- <-. repeat split.
  - intros f off w p f' H. cbn [Seek memFile_readSeeker] in H.
    unfold mem_Seek in H.
    destruct (Z.ltb_spec (whenceBase mf_pos mf_size f w + off) 0);
      [discriminate|].
    injection H as <- _. assumption.
  - intros f n b f' H. split.
    + exact (memFile_reads_in_full f n b f' H).
    + exact (mem_readBytes_pos f n b f' H).
  - intros f n b f' H. exact (mem_readBytes_pos f n b f' H).
Qed.

Lemma Identify_outcomes_witness :
  @None tagError <> Some panicBounds
  /\ ((@None tagError = None /\ In (VORBIS, FLAC) identified)
      \/ (@None tagError <> None
          /\ VORBIS = FormatZero /\ FLAC = FileTypeZero)).
Proof.
  apply (Identify_outcomes flacFile VORBIS FLAC None flacFile
           memFile_reads_in_full).
  vm_compute. reflexivity.
Defined.

Lemma Identify_magic_witness :
  exists res,
    Identify flacFile = (res, flacFile)
    /\ (slice (firstn 11 (mf_data flacFile)) 0 4
        = list_byte_of_string "fLaC" ->
        res = (VORBIS, FLAC, None))
    /\ (slice (firstn 11 (mf_data flacFile)) 0 4
        = list_byte_of_string "OggS" ->
        res = (VORBIS, OGG, None))
    /\ (slice (firstn 11 (mf_data flacFile)) 4 11
        = list_byte_of_string "ftypM4A" ->
        slice (firstn 11 (mf_data flacFile)) 0 4
        <> list_byte_of_string "fLaC" ->
        slice (firstn 11 (mf_data flacFile)) 0 4
        <> list_byte_of_string "OggS" ->
        res = (AAC, MP4, None))
    /\ (slice (firstn 11 (mf_data flacFile)) 0 3
        = list_byte_of_string "ID3" ->
        slice (firstn 11 (mf_data flacFile)) 4 11
        <> list_byte_of_string "ftypM4A" ->
        let v := Byte.to_N (nth 3 (firstn 11 (mf_data flacFile)) x00) in
        res = if (v =? 2)%N then (ID3v2_2, MP3, None)
              else if (v =? 3)%N then (ID3v2_3, MP3, None)
              else if (v =? 4)%N then (ID3v2_4, MP3, None)
              else (FormatZero, FileTypeZero, Some (errID3Version v))).
Proof.
  apply (Identify_magic flacFile (firstn 11 (mf_data flacFile))
           {| mf_data := mf_data flacFile; mf_pos := 11 |} 0%Z flacFile);
    vm_compute; reflexivity.
Defined.

Lemma Identify_position_witness :
  (@None tagError = None -> ID3v1 <> ID3v1 ->
   mf_pos {| mf_data := mf_data id3v1File; mf_pos := 3 |}
   = mf_pos id3v1File)
  /\ (forall v, @None tagError = Some (errID3Version v) ->
      mf_pos {| mf_data := mf_data id3v1File; mf_pos := 3 |}
      = mf_pos id3v1File)
  /\ (ID3v1 = ID3v1 \/ @None tagError = Some ErrNoTagsFound ->
      mf_pos {| mf_data := mf_data id3v1File; mf_pos := 3 |} = 3%Z
      /\ (128 <= mf_size id3v1File)%Z).
Proof.
  apply (Identify_position mf_pos mf_size id3v1File ID3v1 MP3 None
           {| mf_data := mf_data id3v1File; mf_pos := 3 |} memFile_laws).
  vm_compute. reflexivity.
Defined.
